(** * The username duck of Signal Desktop: reducer, thunks and their guarantees

    Shallow embedding of [ts/state/ducks/username.ts] (the second module of
    [src/ts/state/ducks/updates.ts]): the reducer of the username slice, the
    nickname validation helper, and the three thunks [reserveUsername],
    [confirmUsername] and [deleteUsername] run inside a small model of the
    store, the promise middleware and the pending remote calls. *)

From Stdlib Require Import Ascii String.
From stdpp Require Import base decidable list strings.

Local Open Scope string_scope.
Local Open Scope nat_scope.
Local Open Scope list_scope.

(** ** Enumerations of [usernameEnums], [types/Username] and [types/Toast] *)

Inductive UsernameReservationState := Closed | Open | Reserving | Confirming.

Inductive UsernameReservationError :=
| General
| NotEnoughCharacters
| TooManyCharacters
| CheckCharacters
| CheckStartingCharacter
| UsernameNotAvailable.

(** The reducer names [Editing] and [Deleting]; [ConfirmingDelete] is the
    member the profile editor sets through [setUsernameEditState]. *)
Inductive UsernameEditState := Editing | ConfirmingDelete | Deleting.

(** The reducer's [else throw missingCaseError(error)] takes [error] at type
    [never], so the enumeration has exactly the two members it tests. *)
Inductive ReserveUsernameError := Unprocessable | Conflict.

(** Only [FailedToDeleteUsername] is used by this module. *)
Inductive ToastType := FailedToDeleteUsername | OtherToast (name : string).

#[global] Instance UsernameReservationState_eq_dec : EqDecision UsernameReservationState.
Proof. solve_decision. Defined.
#[global] Instance UsernameReservationError_eq_dec : EqDecision UsernameReservationError.
Proof. solve_decision. Defined.
#[global] Instance UsernameEditState_eq_dec : EqDecision UsernameEditState.
Proof. solve_decision. Defined.

(** ** Exceptions and results *)

Inductive Exn :=
| AssertionError (message : string)
| TypeError.

Inductive Res (A : Type) :=
| Ok (value : A)
| Throw (exn : Exn).
Arguments Ok {A} value.
Arguments Throw {A} exn.

Definition bind {A B} (m : Res A) (k : A -> Res B) : Res B :=
  match m with
  | Ok a => k a
  | Throw e => Throw e
  end.

Notation "m ;;; k" := (bind m (fun _ => k))
  (at level 100, k at level 200, right associativity).

(** ** Abort controllers

    An [AbortController] is a heap object compared by identity ([!==]) whose
    signal carries one mutable flag.  Objects are named by their allocation
    index; the heap lists the [aborted] flag of every controller made so far. *)

Definition AbortController := nat.
Definition Heap := list bool.

Definition newAbortController (h : Heap) : AbortController * Heap :=
  (List.length h, h ++ [false]).

Definition abort (a : AbortController) (h : Heap) : Heap := <[a := true]> h.

Definition aborted (h : Heap) (a : AbortController) : bool :=
  match h !! a with
  | Some b => b
  | None => false
  end.

(** [usernameReservation.abortController?.abort()] *)
Definition abortOpt (oa : option AbortController) (h : Heap) : Heap :=
  match oa with
  | Some a => abort a h
  | None => h
  end.

(** [meta.abortController !== usernameReservation.abortController]; the
    action's controller is always an object, the state's may be undefined. *)
Definition sameController (meta : AbortController)
    (current : option AbortController) : bool :=
  match current with
  | Some a => Nat.eqb meta a
  | None => false
  end.

(** ** Character classes and the two regular expressions of the helper *)

Definition inRange (lo hi c : ascii) : bool :=
  (nat_of_ascii lo <=? nat_of_ascii c) && (nat_of_ascii c <=? nat_of_ascii hi).

(** [[0-9a-z_]] *)
Definition class_0_9a_z_ (c : ascii) : bool :=
  inRange "0" "9" c || inRange "a" "z" c || Ascii.eqb c "_".

(** [[a-z_]] *)
Definition class_a_z_ (c : ascii) : bool :=
  inRange "a" "z" c || Ascii.eqb c "_".

Fixpoint allChars (p : ascii -> bool) (s : string) : bool :=
  match s with
  | EmptyString => true
  | String c rest => p c && allChars p rest
  end.

(** [/^[0-9a-z_]+$/.test(s)]: one or more characters, all of the class, up to
    the end of the input. *)
Definition test_0_9a_z_plus (s : string) : bool :=
  match s with
  | EmptyString => false
  | String _ _ => allChars class_0_9a_z_ s
  end.

(** [/^[a-z_]/.test(s)]: the first character is of the class. *)
Definition test_starts_a_z_ (s : string) : bool :=
  match s with
  | EmptyString => false
  | String c _ => class_a_z_ c
  end.

(** JavaScript truthiness of a [string | undefined]. *)
Definition truthy (s : option string) : bool :=
  match s with
  | None => false
  | Some EmptyString => false
  | Some (String _ _) => true
  end.

(** How a promise settles. *)
Inductive Settled (A : Type) :=
| Resolved (value : A)
| Rejected.
Arguments Resolved {A} value.
Arguments Rejected {A}.

(** ** What the module imports from the rest of the application

    Neither the build's environment nor [util/Username] is part of the
    sources.  [isProduction] stands for
    [getEnvironment() === Environment.Production]; [getMinNickname],
    [getMaxNickname] and [isValidNickname] are the functions of
    [util/Username]. *)
Class Env := mkEnv {
  isProduction : bool;
  getMinNickname : nat;
  getMaxNickname : nat;
  isValidNickname : string -> bool
}.

Section Username.

Context `{env : Env}.

(** The reservation handed out by the server ([UsernameReservationType]) is
    opaque to this module. *)
Context {UsernameReservationType : Type}.

(** Modelled from the spec: [assertDev] of [util/assert] is not part of the
    sources.  "A defensive assertion fires (in non-production builds) when an
    invariant is violated; in production this degrades" to going on: a failed
    assertion throws unless the build is a production build, where it is only
    logged. *)
Definition assertDev (condition : bool) (message : string) : Res unit :=
  if condition then Ok tt
  else if isProduction then Ok tt
  else Throw (AssertionError message).

(** ** State *)

Record UsernameReservationStateType := mkReservation {
  state : UsernameReservationState;
  reservation : option UsernameReservationType;
  error : option UsernameReservationError;
  abortController : option AbortController
}.

Record UsernameStateType := mkUsername {
  editState : UsernameEditState;
  usernameReservation : UsernameReservationStateType
}.

(** [{ ok: true, reservation } | { ok: false, error }] *)
Inductive ReserveUsernameResultType :=
| ResultOk (reservation : UsernameReservationType)
| ResultError (error : ReserveUsernameError).

(** ** Actions

    The three promise actions reach the reducer as the [_PENDING],
    [_FULFILLED] and [_REJECTED] actions of the promise middleware.  The
    payload of a [_REJECTED] action (the error) is never read.  [SHOW_TOAST]
    belongs to the toast duck; the root reducer hands it to this one too. *)

Inductive UsernameActionType :=
| SET_USERNAME_EDIT_STATE (editState : UsernameEditState)
| OPEN_USERNAME_RESERVATION_MODAL
| CLOSE_USERNAME_RESERVATION_MODAL
| SET_USERNAME_RESERVATION_ERROR (error : option UsernameReservationError)
| RESERVE_USERNAME_PENDING (meta : AbortController)
| RESERVE_USERNAME_FULFILLED (payload : option ReserveUsernameResultType)
    (meta : AbortController)
| RESERVE_USERNAME_REJECTED (meta : AbortController)
| CONFIRM_USERNAME_PENDING
| CONFIRM_USERNAME_FULFILLED
| CONFIRM_USERNAME_REJECTED
| DELETE_USERNAME_PENDING
| DELETE_USERNAME_FULFILLED
| DELETE_USERNAME_REJECTED
| SHOW_TOAST (toastType : ToastType).

Definition setUsernameEditState (editState : UsernameEditState) :=
  SET_USERNAME_EDIT_STATE editState.
Definition openUsernameReservationModal := OPEN_USERNAME_RESERVATION_MODAL.
Definition closeUsernameReservationModal := CLOSE_USERNAME_RESERVATION_MODAL.
Definition setUsernameReservationError (error : option UsernameReservationError) :=
  SET_USERNAME_RESERVATION_ERROR error.
Definition showToast (toastType : ToastType) := SHOW_TOAST toastType.

(** ** Reducer *)

Definition getEmptyState : UsernameStateType :=
  {| editState := Editing;
     usernameReservation :=
       {| state := Closed; reservation := None; error := None;
          abortController := None |} |}.

Definition withReservation (st : UsernameStateType)
    (r : UsernameReservationStateType) : UsernameStateType :=
  {| editState := editState st; usernameReservation := r |}.

Definition withEditState (st : UsernameStateType)
    (e : UsernameEditState) : UsernameStateType :=
  {| editState := e; usernameReservation := usernameReservation st |}.

Definition isState (r : UsernameReservationStateType)
    (s : UsernameReservationState) : bool :=
  bool_decide (state r = s).

(** The reducer reads the heap only to abort the controller it replaces; it
    returns the next state and the heap, or throws. *)
Definition reducer (st : UsernameStateType) (action : UsernameActionType)
    (h : Heap) : Res (UsernameStateType * Heap) :=
  let usernameReservation := usernameReservation st in
  match action with
  | SET_USERNAME_EDIT_STATE editState =>
      Ok (withEditState st editState, h)
  | OPEN_USERNAME_RESERVATION_MODAL =>
      Ok (withReservation st
            {| state := Open; reservation := None; error := None;
               abortController := None |}, h)
  | CLOSE_USERNAME_RESERVATION_MODAL =>
      Ok (withReservation st
            {| state := Closed; reservation := None; error := None;
               abortController := None |}, h)
  | SET_USERNAME_RESERVATION_ERROR error =>
      Ok (withReservation st
            {| state := state usernameReservation;
               reservation := None;
               error := error;
               abortController := abortController usernameReservation |}, h)
  | RESERVE_USERNAME_PENDING meta =>
      let h' := abortOpt (abortController usernameReservation) h in
      Ok (withReservation st
            {| state := Reserving; reservation := None; error := None;
               abortController := Some meta |}, h')
  | RESERVE_USERNAME_FULFILLED payload meta =>
      if negb (sameController meta (abortController usernameReservation))
      then Ok (st, h)
      else
        assertDev (isState usernameReservation Reserving)
          "Must be reserving before resolving reservation" ;;;
        assertDev (bool_decide (is_Some payload))
          "Payload can be undefined only when aborted" ;;;
        match payload with
        | None => Throw TypeError
        | Some (ResultError error) =>
            let stateError :=
              match error with
              | Unprocessable => CheckCharacters
              | Conflict => UsernameNotAvailable
              end in
            Ok (withReservation st
                  {| state := Open; reservation := None;
                     error := Some stateError; abortController := None |}, h)
        | Some (ResultOk reservation) =>
            Ok (withReservation st
                  {| state := Open; reservation := Some reservation;
                     error := None; abortController := None |}, h)
        end
  | RESERVE_USERNAME_REJECTED meta =>
      if negb (sameController meta (abortController usernameReservation))
      then Ok (st, h)
      else
        assertDev (isState usernameReservation Reserving)
          "Must be reserving before rejecting reservation" ;;;
        Ok (withReservation st
              {| state := Open; reservation := None; error := Some General;
                 abortController := None |}, h)
  | CONFIRM_USERNAME_PENDING =>
      assertDev (isState usernameReservation Open)
        "Must be open before confirmation" ;;;
      Ok (withReservation st
            {| state := Confirming;
               reservation := reservation usernameReservation;
               error := None; abortController := None |}, h)
  | CONFIRM_USERNAME_FULFILLED =>
      assertDev (isState usernameReservation Confirming)
        "Must be reserving before resolving confirmation" ;;;
      Ok (withReservation st
            {| state := Closed; reservation := None; error := None;
               abortController := None |}, h)
  | CONFIRM_USERNAME_REJECTED =>
      assertDev (isState usernameReservation Confirming)
        "Must be reserving before rejecting reservation" ;;;
      Ok (withReservation st
            {| state := Open; reservation := None; error := Some General;
               abortController := None |}, h)
  | DELETE_USERNAME_PENDING => Ok (withEditState st Deleting, h)
  | DELETE_USERNAME_FULFILLED => Ok (withEditState st Editing, h)
  | DELETE_USERNAME_REJECTED =>
      assertDev false "Should never reject" ;;;
      Ok (st, h)
  | SHOW_TOAST _ => Ok (st, h)
  end.

(** ** Helpers *)

Definition getNicknameInvalidError (nickname : option string)
    : option UsernameReservationError :=
  match nickname with
  | None => None
  | Some n =>
      if negb (truthy nickname) then None
      else if String.length n <? getMinNickname then Some NotEnoughCharacters
      else if negb (test_0_9a_z_plus n) then Some CheckCharacters
      else if negb (test_starts_a_z_ n) then Some CheckStartingCharacter
      else if getMaxNickname <? String.length n then Some TooManyCharacters
      else None
  end.

(** ** The store, the promise middleware and the pending work

    A thunk runs to its end once called; what it leaves behind (a run of
    [reserveUsername] asleep, a remote call under way) goes on later, one
    event at a time.  The remote services and the timer are the
    environment: the model records the calls issued and lets each settle
    either way. *)

(** The remote calls issued so far.  [doReserveUsername] is handed the abort
    signal of its attempt. *)
Inductive RemoteCall :=
| DoReserveUsername (previousUsername : option string) (nickname : string)
    (abortSignal : AbortController)
| DoConfirmUsername (reservation : UsernameReservationType)
| DoDeleteUsername (username : string).

(** Where the [run] closure of one [reserveUsername] stands: in
    [await sleep(delay, abortSignal)], in [doReserveUsername], or returned. *)
Inductive RunPhase := Sleeping | AwaitingReserve | Returned_.

Record ReserveRun := mkRun {
  runUsername : option string;
  runNickname : string;
  phase : RunPhase
}.

Record System := mkSystem {
  store : UsernameStateType;
  meUsername : option string;
  heap : Heap;
  runs : list ReserveRun;
  confirming : nat;
  deleting : nat;
  calls : list RemoteCall;
  dispatched : list UsernameActionType
}.

Definition initialSystem (me : option string) : System :=
  {| store := getEmptyState; meUsername := me; heap := []; runs := [];
     confirming := 0; deleting := 0; calls := []; dispatched := [] |}.

Definition setStore (s : System) (st : UsernameStateType) (h : Heap)
    (a : UsernameActionType) : System :=
  {| store := st; meUsername := meUsername s; heap := h; runs := runs s;
     confirming := confirming s; deleting := deleting s; calls := calls s;
     dispatched := a :: dispatched s |}.

Definition logAction (s : System) (a : UsernameActionType) : System :=
  {| store := store s; meUsername := meUsername s; heap := heap s;
     runs := runs s; confirming := confirming s; deleting := deleting s;
     calls := calls s; dispatched := a :: dispatched s |}.

Definition setMe (s : System) (me : option string) : System :=
  {| store := store s; meUsername := me; heap := heap s; runs := runs s;
     confirming := confirming s; deleting := deleting s; calls := calls s;
     dispatched := dispatched s |}.

Definition setRuns (s : System) (h : Heap) (rs : list ReserveRun) : System :=
  {| store := store s; meUsername := meUsername s; heap := h; runs := rs;
     confirming := confirming s; deleting := deleting s; calls := calls s;
     dispatched := dispatched s |}.

Definition setPending (s : System) (c d : nat) : System :=
  {| store := store s; meUsername := meUsername s; heap := heap s;
     runs := runs s; confirming := c; deleting := d; calls := calls s;
     dispatched := dispatched s |}.

Definition issue (s : System) (c : RemoteCall) : System :=
  {| store := store s; meUsername := meUsername s; heap := heap s;
     runs := runs s; confirming := confirming s; deleting := deleting s;
     calls := c :: calls s; dispatched := dispatched s |}.

(** How a thunk or a dispatch ends, and the system it leaves. *)
Inductive Outcome :=
| Returned (s : System)
| Thrown (exn : Exn) (s : System).

Definition after (o : Outcome) : System :=
  match o with
  | Returned s => s
  | Thrown _ s => s
  end.

(** [dispatch(action)]: the reducer's result replaces the state; when the
    reducer throws, the state stays and the exception goes to the caller. *)
Definition dispatch (action : UsernameActionType) (s : System) : Outcome :=
  match reducer (store s) action (heap s) with
  | Ok (st, h) => Returned (setStore s st h action)
  | Throw e => Thrown e (logAction s action)
  end.

(** The promise middleware, second half: the settled promise is dispatched
    as the [_FULFILLED] or the [_REJECTED] action. *)
Definition settle {A} (fulfilled : A -> UsernameActionType)
    (rejected : UsernameActionType) (p : Settled A) (s : System) : Outcome :=
  match p with
  | Resolved v => dispatch (fulfilled v) s
  | Rejected => dispatch rejected s
  end.

(** *** reserveUsername *)

Definition reserveUsername (nickname : string) (s : System) : Outcome :=
  if negb (truthy (Some nickname)) then Returned s
  else if negb (isValidNickname nickname) then
    (* [if (error)]: an error of the enumeration is a non-empty string *)
    match getNicknameInvalidError (Some nickname) with
    | Some error => dispatch (setUsernameReservationError (Some error)) s
    | None =>
        match assertDev false "This should not happen" with
        | Ok _ => dispatch (setUsernameReservationError (Some General)) s
        | Throw e => Thrown e s
        end
    end
  else
    let username := meUsername s in
    let '(abortController, h) := newAbortController (heap s) in
    (* [run()] is called first and stops in [sleep]; then the middleware
       dispatches the pending action *)
    let s1 := setRuns s h (runs s ++ [mkRun username nickname Sleeping]) in
    dispatch (RESERVE_USERNAME_PENDING abortController) s1.

Definition setPhase (s : System) (a : AbortController) (r : ReserveRun)
    (p : RunPhase) : System :=
  setRuns s (heap s) (<[a := mkRun (runUsername r) (runNickname r) p]> (runs s)).

(** Modelled from the spec: [sleep] of [util/sleep] is not part of the
    sources.  It is "a cooperative delay interruptible by cancellation": the
    promise resolves when the timer fires, and rejects instead once the
    signal is aborted.  [run] catches the rejection and returns undefined,
    which the middleware dispatches as a fulfilled action without payload. *)
Definition sleepElapsed (a : AbortController) (s : System) : option System :=
  match runs s !! a with
  | Some r =>
      match phase r with
      | Sleeping =>
          if aborted (heap s) a then None
          else Some (issue (setPhase s a r AwaitingReserve)
                       (DoReserveUsername (runUsername r) (runNickname r) a))
      | _ => None
      end
  | None => None
  end.

Definition sleepAborted (a : AbortController) (s : System) : option System :=
  match runs s !! a with
  | Some r =>
      match phase r with
      | Sleeping =>
          if aborted (heap s) a
          then Some (after (settle (fun p => RESERVE_USERNAME_FULFILLED p a)
                              (RESERVE_USERNAME_REJECTED a)
                              (Resolved None) (setPhase s a r Returned_)))
          else None
      | _ => None
      end
  | None => None
  end.

Definition reserveSettled (a : AbortController)
    (remote : Settled ReserveUsernameResultType) (s : System) : option System :=
  match runs s !! a with
  | Some r =>
      match phase r with
      | AwaitingReserve =>
          let p := match remote with
                   | Resolved v => Resolved (Some v)
                   | Rejected => Rejected
                   end in
          Some (after (settle (fun p => RESERVE_USERNAME_FULFILLED p a)
                         (RESERVE_USERNAME_REJECTED a) p
                         (setPhase s a r Returned_)))
      | _ => None
      end
  | None => None
  end.

(** *** confirmUsername *)

Definition confirmUsername (s : System) : Outcome :=
  match reservation (usernameReservation (store s)) with
  | None =>
      match assertDev false "This should not happen" with
      | Ok _ => dispatch (setUsernameReservationError (Some General)) s
      | Throw e => Thrown e s
      end
  | Some reservation =>
      (* the payload [doConfirmUsername(reservation)] is evaluated first *)
      let s1 := issue s (DoConfirmUsername reservation) in
      (* the middleware subscribes to the promise after the pending action;
         when that dispatch throws, no completion is ever dispatched *)
      match dispatch CONFIRM_USERNAME_PENDING s1 with
      | Returned s2 => Returned (setPending s2 (S (confirming s2)) (deleting s2))
      | Thrown e s2 => Thrown e s2
      end
  end.

Definition confirmSettled (remote : Settled unit) (s : System) : option System :=
  match confirming s with
  | 0 => None
  | S n =>
      Some (after (settle (fun _ => CONFIRM_USERNAME_FULFILLED)
                     CONFIRM_USERNAME_REJECTED remote
                     (setPending s n (deleting s))))
  end.

(** *** deleteUsername *)

(** [a ?? b] on [string | undefined] *)
Definition nullish (a b : option string) : option string :=
  match a with
  | Some _ => a
  | None => b
  end.

Definition deleteUsername (defaultUsername : option string) (s : System)
    : Outcome :=
  let username := nullish (meUsername s) defaultUsername in
  if negb (truthy username) then Returned s
  else
    match username with
    | None => Returned s
    | Some u =>
        (* [run()] is called first and stops in [doDeleteUsername] *)
        let s1 := issue s (DoDeleteUsername u) in
        match dispatch DELETE_USERNAME_PENDING s1 with
        | Returned s2 => Returned (setPending s2 (confirming s2) (S (deleting s2)))
        | Thrown e s2 => Thrown e s2
        end
    end.

(** The rest of [run] once [doDeleteUsername] has settled: the [catch]
    dispatches the toast; [run] rejects only if that dispatch throws. *)
Definition deleteUsername_run (remote : Settled unit) (s : System)
    : Settled unit * System :=
  match remote with
  | Resolved _ => (Resolved tt, s)
  | Rejected =>
      match dispatch (showToast FailedToDeleteUsername) s with
      | Returned s' => (Resolved tt, s')
      | Thrown _ s' => (Rejected, s')
      end
  end.

Definition deleteSettled (remote : Settled unit) (s : System) : option System :=
  match deleting s with
  | 0 => None
  | S n =>
      let '(p, s1) := deleteUsername_run remote (setPending s (confirming s) n) in
      Some (after (settle (fun _ => DELETE_USERNAME_FULFILLED)
                     DELETE_USERNAME_REJECTED p s1))
  end.

(** *** Events and runs of the system *)

Inductive Event :=
| UiSetEditState (editState : UsernameEditState)
| UiOpenModal
| UiCloseModal
| UiSetError (error : option UsernameReservationError)
| UiReserve (nickname : string)
| UiConfirm
| UiDelete (defaultUsername : option string)
| MeChanged (username : option string)
| SleepElapsed (a : AbortController)
| SleepAborted (a : AbortController)
| ReserveSettled (a : AbortController)
    (remote : Settled ReserveUsernameResultType)
| ConfirmSettled (remote : Settled unit)
| DeleteSettled (remote : Settled unit).

(** One event; [None] when it cannot happen in [s]. *)
Definition step (s : System) (ev : Event) : option System :=
  match ev with
  | UiSetEditState e => Some (after (dispatch (setUsernameEditState e) s))
  | UiOpenModal => Some (after (dispatch openUsernameReservationModal s))
  | UiCloseModal => Some (after (dispatch closeUsernameReservationModal s))
  | UiSetError e => Some (after (dispatch (setUsernameReservationError e) s))
  | UiReserve nickname => Some (after (reserveUsername nickname s))
  | UiConfirm => Some (after (confirmUsername s))
  | UiDelete d => Some (after (deleteUsername d s))
  | MeChanged u => Some (setMe s u)
  | SleepElapsed a => sleepElapsed a s
  | SleepAborted a => sleepAborted a s
  | ReserveSettled a remote => reserveSettled a remote s
  | ConfirmSettled remote => confirmSettled remote s
  | DeleteSettled remote => deleteSettled remote s
  end.

Fixpoint exec (s : System) (evs : list Event) : option System :=
  match evs with
  | [] => Some s
  | ev :: rest =>
      match step s ev with
      | Some s' => exec s' rest
      | None => None
      end
  end.

Definition reachable (s : System) : Prop :=
  exists me evs, exec (initialSystem me) evs = Some s.

(** The attempt an event belongs to. *)
Definition attemptOf (ev : Event) : option AbortController :=
  match ev with
  | SleepElapsed a | SleepAborted a | ReserveSettled a _ => Some a
  | _ => None
  end.

(** The reserve call of attempt [a] is among the calls issued. *)
Definition reserveIssued (a : AbortController) (cs : list RemoteCall) : Prop :=
  exists previousUsername nickname,
    In (DoReserveUsername previousUsername nickname a) cs.

(** States of the slice reachable from the empty state through the reducer,
    whatever the actions and the heap they meet. *)
Inductive reachableState : UsernameStateType -> Prop :=
| reach_empty : reachableState getEmptyState
| reach_step st action h st' h' :
    reachableState st ->
    reducer st action h = Ok (st', h') ->
    reachableState st'.

Definition closedReservation : UsernameReservationStateType :=
  {| state := Closed; reservation := None; error := None;
     abortController := None |}.

Definition openWith (r : option UsernameReservationType)
    (e : option UsernameReservationError) : UsernameReservationStateType :=
  {| state := Open; reservation := r; error := e; abortController := None |}.

(** A controller is recorded only while reserving, and a reservation never
    comes with an error. *)
Definition wellFormed (r : UsernameReservationStateType) : Prop :=
  (is_Some (abortController r) -> state r = Reserving) /\
  (reservation r = None \/ error r = None).

(** Exactly one of the reservation and the error is set. *)
Definition exactlyOne (r : UsernameReservationStateType) : Prop :=
  (is_Some (reservation r) /\ error r = None) \/
  (is_Some (error r) /\ reservation r = None).

(** The controller recorded in the store. *)
Definition current (s : System) : option AbortController :=
  abortController (usernameReservation (store s)).

(** The system a valid [reserveUsername] leaves. *)
Definition reserving (nickname : string) (s : System) : System :=
  {| store := withReservation (store s)
       {| state := Reserving; reservation := None; error := None;
          abortController := Some (length (heap s)) |};
     meUsername := meUsername s;
     heap := abortOpt (current s) (heap s ++ [false]);
     runs := runs s ++ [mkRun (meUsername s) nickname Sleeping];
     confirming := confirming s; deleting := deleting s; calls := calls s;
     dispatched := RESERVE_USERNAME_PENDING (length (heap s)) :: dispatched s |}.

(** What every run of the system keeps: one run per controller; the recorded
    controller is the newest one and is not aborted; a reserve call was
    issued only by a run that has left its sleep; no rejected delete was
    dispatched. *)
Definition invariant (s : System) : Prop :=
  length (heap s) = length (runs s) /\
  (forall a, current s = Some a ->
     S a = length (heap s) /\ aborted (heap s) a = false) /\
  (forall a, reserveIssued a (calls s) ->
     exists r, runs s !! a = Some r /\ phase r <> Sleeping) /\
  ~ In DELETE_USERNAME_REJECTED (dispatched s).

(** Attempt [a] was aborted in its sleep: its controller is aborted, its
    call was not issued, and its run is not waiting for the service. *)
Definition abortedAsleep (a : AbortController) (s : System) : Prop :=
  aborted (heap s) a = true /\
  ~ reserveIssued a (calls s) /\
  (exists r, runs s !! a = Some r /\ phase r <> AwaitingReserve).

End Username.

(** ** Concrete builds and alphabets used to state and exercise the results *)






(** A validator of the shape [util/Username] is expected to have: the
    nickname starts in [[a-z_]], stays in [[0-9a-z_]] and has between three
    and thirty-two characters.  It only serves the examples. *)
Definition sampleValid (n : string) : bool :=
  test_starts_a_z_ n && allChars class_0_9a_z_ n
  && (3 <=? String.length n) && (String.length n <=? 32).

Definition developmentBuild : Env := mkEnv false 3 32 sampleValid.
Definition productionBuild : Env := mkEnv true 3 32 sampleValid.

(** A build whose longest nickname has five characters. *)
Definition shortNamesBuild : Env := mkEnv false 3 5 sampleValid.

(** The system that the events [evs] lead to from the initial one, with no
    username in the session and reservations written as strings. *)
Definition systemAfter (env : Env) (evs : list (@Event string)) : @System string :=
  match exec (initialSystem None) evs with
  | Some s => s
  | None => initialSystem None
  end.

(** A second [reserveUsername] while the first one sleeps. *)
Definition supersedingEvents : list (@Event string) :=
  [UiOpenModal; UiReserve "abc"; UiReserve "abcd"].

(** A second [reserveUsername] while the first one waits for the service. *)
Definition overtakingEvents : list (@Event string) :=
  [UiOpenModal; UiReserve "abc"; SleepElapsed 0; UiReserve "abcd"].

(** The modal is closed while the confirm call is under way. *)
Definition closedWhileConfirming : list (@Event string) :=
  [UiOpenModal; UiReserve "abc"; SleepElapsed 0;
   ReserveSettled 0 (Resolved (ResultOk "abc.01"));
   UiConfirm; UiCloseModal].

(** A delete whose remote call fails. *)
Definition failedDelete : list (@Event string) :=
  [UiDelete (Some "abc.01"); DeleteSettled Rejected].

(** The state of the slice while the first attempt is reserving. *)
Definition reservingState : @UsernameStateType string :=
  {| editState := Editing;
     usernameReservation :=
       {| state := Reserving; reservation := None; error := None;
          abortController := Some 0 |} |}.

(** ** What the calls issued and the reservation held go back to *)

Section Provenance.

Context `{env : Env} {UsernameReservationType : Type}.

Local Abbreviation Sys := (@System UsernameReservationType).

(** The abort signals of the reserve calls issued, newest first. *)
Fixpoint reserveSignals (cs : list (@RemoteCall UsernameReservationType))
    : list AbortController :=
  match cs with
  | [] => []
  | DoReserveUsername _ _ a :: rest => a :: reserveSignals rest
  | _ :: rest => reserveSignals rest
  end.

(** No attempt issued two reserve calls; every reserve call carries the
    username and the nickname its run captured, and that run has left its
    sleep; every run holds a non-empty nickname that [isValidNickname]
    accepted; every delete call carries a non-empty username. *)
Definition callsJustified (s : Sys) : Prop :=
  NoDup (reserveSignals (calls s)) /\
  (forall p n a, In (DoReserveUsername p n a) (calls s) ->
     exists r, runs s !! a = Some r /\ runUsername r = p /\
       runNickname r = n /\ phase r <> Sleeping) /\
  (forall a r, runs s !! a = Some r ->
     runNickname r <> "" /\ isValidNickname (runNickname r) = true) /\
  (forall u, In (DoDeleteUsername u) (calls s) -> u <> "").

(** The reservation [r] was the payload of a fulfilled reserve action. *)
Definition delivered (r : UsernameReservationType) (s : Sys) : Prop :=
  exists a, In (RESERVE_USERNAME_FULFILLED (Some (ResultOk r)) a) (dispatched s).

(** The reservation held by the state, and every reservation sent to the
    confirm service, was delivered by a reserve completion. *)
Definition reservationsDelivered (s : Sys) : Prop :=
  (forall r, reservation (usernameReservation (store s)) = Some r ->
     delivered r s) /\
  (forall r, In (DoConfirmUsername r) (calls s) -> delivered r s).

(** Attempt [a] was made and its controller is not the recorded one. *)
Definition superseded (a : AbortController) (s : Sys) : Prop :=
  a < length (heap s) /\ current s <> Some a.

(** The states of the slice in which a run of the modal can be. *)
Definition shapely (r : @UsernameReservationStateType UsernameReservationType) : Prop :=
  (state r = Reserving <-> is_Some (abortController r)) /\
  (is_Some (reservation r) -> state r = Open \/ state r = Confirming).

End Provenance.

(** * The updates duck

    Shallow embedding of [ts/state/ducks/updates.ts] (the first module of
    [src/ts/state/ducks/updates.ts]): the reducer of the update dialog and
    the thunks [snoozeUpdate] and [startUpdate]. *)

(** [DialogType] of [types/Dialogs].  The duck names [None],
    [MacOS_Read_Only] and [Cannot_Update]; [Other] stands for the members it
    only passes on. *)
Module DialogType.
Inductive t := None | MacOS_Read_Only | Cannot_Update | Other (name : string).
End DialogType.

#[global] Instance DialogType_eq_dec : EqDecision DialogType.t.
Proof. solve_decision. Defined.

Module Updates.

(** An optional key of an object literal: left out, or written with a value
    that may be undefined. *)
Inductive Key (A : Type) :=
| Absent
| Present (value : option A).
Arguments Absent {A}.
Arguments Present {A} value.

(** [{ ...{ k: old }, ...other }] read at [k]. *)
Definition spread {A} (old : option A) (k : Key A) : option A :=
  match k with
  | Absent => old
  | Present v => v
  end.

(** [n + 1] on the count of show events, a double: exact up to [2^53], where
    the sum rounds back to [2^53].  Counts above [2^53] are not reached from
    [getEmptyState] and are not modelled. *)
Definition plusOne (n : N) : N :=
  if (n <? 2 ^ 53)%N then (n + 1)%N else n.

Section Updates.

(** The download sizes are numbers the duck only stores. *)
Context {Number : Type}.

Record UpdatesStateType := mkUpdates {
  dialogType : DialogType.t;
  didSnooze : bool;
  downloadSize : option Number;
  downloadedSize : option Number;
  showEventsCount : N;
  version : option string
}.

Record UpdateDialogOptionsType := mkOptions {
  optDownloadSize : Key Number;
  optDownloadedSize : Key Number;
  optVersion : Key string
}.

(** [{}] *)
Definition noOptions : UpdateDialogOptionsType :=
  {| optDownloadSize := Absent; optDownloadedSize := Absent;
     optVersion := Absent |}.

(** [OTHER_ACTION] stands for the actions of the other ducks, which the root
    reducer hands to this one too. *)
Inductive UpdatesActionType :=
| DISMISS_DIALOG
| SHOW_UPDATE_DIALOG (dialogType : DialogType.t)
    (otherState : UpdateDialogOptionsType)
| SNOOZE_UPDATE
| START_UPDATE
| UNSNOOZE_UPDATE (payload : DialogType.t)
| OTHER_ACTION (type_ : string).

Definition dismissDialog : UpdatesActionType := DISMISS_DIALOG.

(** [updateDialogOptions = {}] when the argument is left out. *)
Definition showUpdateDialog (dialogType : DialogType.t)
    (updateDialogOptions : option UpdateDialogOptionsType)
    : UpdatesActionType :=
  SHOW_UPDATE_DIALOG dialogType (default noOptions updateDialogOptions).

Definition getEmptyState : UpdatesStateType :=
  {| dialogType := DialogType.None; didSnooze := false;
     downloadSize := None; downloadedSize := None;
     showEventsCount := 0%N; version := None |}.

Definition withDialog (state : UpdatesStateType) (d : DialogType.t)
    (snoozed : bool) : UpdatesStateType :=
  {| dialogType := d; didSnooze := snoozed;
     downloadSize := downloadSize state;
     downloadedSize := downloadedSize state;
     showEventsCount := showEventsCount state;
     version := version state |}.

(** The reducer; its default argument [getEmptyState()] only serves the
    first call of the store. *)
Definition reducer (state : UpdatesStateType) (action : UpdatesActionType)
    : UpdatesStateType :=
  match action with
  | SHOW_UPDATE_DIALOG dialogType otherState =>
      {| dialogType := dialogType;
         didSnooze := didSnooze state;
         downloadSize := spread (downloadSize state) (optDownloadSize otherState);
         downloadedSize :=
           spread (downloadedSize state) (optDownloadedSize otherState);
         showEventsCount := plusOne (showEventsCount state);
         version := spread (version state) (optVersion otherState) |}
  | SNOOZE_UPDATE => withDialog state DialogType.None true
  | START_UPDATE => withDialog state DialogType.None false
  | DISMISS_DIALOG =>
      if bool_decide (dialogType state = DialogType.MacOS_Read_Only)
      then withDialog state DialogType.None (didSnooze state)
      else state
  | UNSNOOZE_UPDATE payload => withDialog state payload false
  | OTHER_ACTION _ => state
  end.

(** *** The thunks

    [timers] are the pending timeouts of [snoozeUpdate], oldest first, each
    with the dialog type it captured; they all wait for [DAY], so they fire
    in the order they were set.  [starting] counts the calls of
    [updateIpc.startUpdate] under way. *)

Record System := mkSystem {
  updates : UpdatesStateType;
  timers : list DialogType.t;
  starting : nat
}.

Definition initialSystem : System :=
  {| updates := getEmptyState; timers := []; starting := 0 |}.

Definition dispatch (action : UpdatesActionType) (s : System) : System :=
  {| updates := reducer (updates s) action; timers := timers s;
     starting := starting s |}.

Definition snoozeUpdate (s : System) : System :=
  let dialogType := dialogType (updates s) in
  let s1 := {| updates := updates s; timers := timers s ++ [dialogType];
               starting := starting s |} in
  dispatch SNOOZE_UPDATE s1.

(** The timeout of the oldest snooze fires. *)
Definition dayElapsed (s : System) : option System :=
  match timers s with
  | [] => None
  | dialogType :: rest =>
      Some (dispatch (UNSNOOZE_UPDATE dialogType)
              {| updates := updates s; timers := rest; starting := starting s |})
  end.

Definition startUpdate (s : System) : System :=
  let s1 := dispatch START_UPDATE s in
  {| updates := updates s1; timers := timers s1; starting := S (starting s1) |}.

(** [updateIpc.startUpdate()] settles; the [catch] shows [Cannot_Update]. *)
Definition startSettled (ipc : Settled unit) (s : System) : option System :=
  match starting s with
  | 0 => None
  | S n =>
      let s1 := {| updates := updates s; timers := timers s; starting := n |} in
      match ipc with
      | Resolved _ => Some s1
      | Rejected =>
          Some (dispatch (SHOW_UPDATE_DIALOG DialogType.Cannot_Update noOptions) s1)
      end
  end.

Inductive Event :=
| UiDismiss
| UiShow (dialogType : DialogType.t)
    (updateDialogOptions : option UpdateDialogOptionsType)
| UiSnooze
| UiStart
| Foreign (type_ : string)
| DayElapsed
| StartSettled (ipc : Settled unit).

Definition step (s : System) (ev : Event) : option System :=
  match ev with
  | UiDismiss => Some (dispatch dismissDialog s)
  | UiShow d o => Some (dispatch (showUpdateDialog d o) s)
  | UiSnooze => Some (snoozeUpdate s)
  | UiStart => Some (startUpdate s)
  | Foreign t => Some (dispatch (OTHER_ACTION t) s)
  | DayElapsed => dayElapsed s
  | StartSettled ipc => startSettled ipc s
  end.

Fixpoint exec (s : System) (evs : list Event) : option System :=
  match evs with
  | [] => Some s
  | ev :: rest =>
      match step s ev with
      | Some s' => exec s' rest
      | None => None
      end
  end.

Definition reachable (s : System) : Prop :=
  exists evs, exec initialSystem evs = Some s.

(** *** Vocabulary for the properties *)

Definition isShow (action : UpdatesActionType) : bool :=
  match action with
  | SHOW_UPDATE_DIALOG _ _ => true
  | _ => false
  end.

(** The actions that write [didSnooze]. *)
Definition writesSnooze (action : UpdatesActionType) : bool :=
  match action with
  | SNOOZE_UPDATE | START_UPDATE | UNSNOOZE_UPDATE _ => true
  | _ => false
  end.

(** The action is a show whose options write the key [key]. *)
Definition writesKey {A} (key : UpdateDialogOptionsType -> Key A)
    (action : UpdatesActionType) : bool :=
  match action with
  | SHOW_UPDATE_DIALOG _ o =>
      match key o with
      | Present _ => true
      | Absent => false
      end
  | _ => false
  end.

(** Over every list of actions, the field read by [get] ends with the
    value of the last show whose options write [key], and keeps its value
    when no show writes it. *)
Definition lastWriterWins {A} (get : UpdatesStateType -> option A)
    (key : UpdateDialogOptionsType -> Key A) : Prop :=
  forall st actions,
    (Forall (fun a => writesKey key a = false) actions ->
       get (foldl reducer st actions) = get st) /\
    (forall pre d o post v,
       actions = pre ++ SHOW_UPDATE_DIALOG d o :: post ->
       key o = Present v ->
       Forall (fun a => writesKey key a = false) post ->
       get (foldl reducer st actions) = v).

(** The events that set or fire a snooze timer. *)
Definition touchesTimers (ev : Event) : bool :=
  match ev with
  | UiSnooze | DayElapsed => true
  | _ => false
  end.

End Updates.

End Updates.

(** ** Properties of the helper *)

Section HelperProperties.

Context `{env : Env}.








End HelperProperties.

(** ** Properties of the reducer *)

Section ReducerProperties.

Context `{env : Env} {UsernameReservationType : Type}.

Local Abbreviation State := (@UsernameStateType UsernameReservationType).

Ltac reducer_cases :=
  unfold reducer, bind, assertDev, isState in *;
  repeat case_match; simplify_eq/=.

Lemma sameController_true (meta : AbortController) (cur : option AbortController) :
  sameController meta cur = true <-> cur = Some meta.
Proof.
  destruct cur as [a|]; simpl.
  - rewrite Nat.eqb_eq. split; [intros -> | intros [= ->]]; reflexivity.
  - split; discriminate.
Qed.

Lemma reducer_stale_fulfilled (st : State) (h : Heap)
    (payload : option ReserveUsernameResultType) (meta : AbortController) :
  abortController (usernameReservation st) <> Some meta ->
  reducer st (RESERVE_USERNAME_FULFILLED payload meta) h = Ok (st, h).
Proof.
  intros Hne. unfold reducer.
  destruct (sameController meta _) eqn:E; [|reflexivity].
  apply sameController_true in E. contradiction.
Qed.

Lemma reducer_stale_rejected (st : State) (h : Heap) (meta : AbortController) :
  abortController (usernameReservation st) <> Some meta ->
  reducer st (RESERVE_USERNAME_REJECTED meta) h = Ok (st, h).
Proof.
  intros Hne. unfold reducer.
  destruct (sameController meta _) eqn:E; [|reflexivity].
  apply sameController_true in E. contradiction.
Qed.

Lemma reducer_wellFormed (st st' : State) (action : UsernameActionType)
    (h h' : Heap) :
  wellFormed (usernameReservation st) ->
  reducer st action h = Ok (st', h') ->
  wellFormed (usernameReservation st').
Proof.
  intros [Hctl Hexcl] Hred. unfold wellFormed in *.
  destruct action; reducer_cases; simpl in *;
    try (split; [intros [? [=]] | auto]; fail);
    try (split; [intros _; reflexivity | auto]; fail);
    try (split; assumption).
  all: split; [assumption | now left].
Qed.

Lemma reachableState_wellFormed (st : State) :
  reachableState st -> wellFormed (usernameReservation st).
Proof.
  induction 1 as [|st action h st' h' _ IH Hred].
  - split; [intros [? [=]] | now left].
  - eapply reducer_wellFormed; eassumption.
Qed.

Lemma matched_is_reserving (st : State) (meta : AbortController) :
  reachableState st ->
  abortController (usernameReservation st) = Some meta ->
  sameController meta (abortController (usernameReservation st)) = true /\
  bool_decide (state (usernameReservation st) = Reserving) = true.
Proof.
  intros Hreach Hctl. split.
  - now apply sameController_true.
  - apply bool_decide_eq_true.
    apply (proj1 (reachableState_wellFormed st Hreach)).
    rewrite Hctl. now eexists.
Qed.

(** C2.  In a reachable state, the completion of the reserve attempt whose
    controller is the one recorded opens the modal again: with the returned
    reservation and no error on success, with [CheckCharacters] on an
    unprocessable nickname, with [UsernameNotAvailable] on a conflict, and
    with [General] when the call fails in any other way (a rejected
    promise). *)
Theorem matched_reserve_completion (st : State) (h : Heap)
    (meta : AbortController) :
  reachableState st ->
  abortController (usernameReservation st) = Some meta ->
  (forall r,
     reducer st (RESERVE_USERNAME_FULFILLED (Some (ResultOk r)) meta) h
     = Ok (withReservation st (openWith (Some r) None), h)) /\
  reducer st (RESERVE_USERNAME_FULFILLED (Some (ResultError Unprocessable)) meta) h
  = Ok (withReservation st (openWith None (Some CheckCharacters)), h) /\
  reducer st (RESERVE_USERNAME_FULFILLED (Some (ResultError Conflict)) meta) h
  = Ok (withReservation st (openWith None (Some UsernameNotAvailable)), h) /\
  reducer st (RESERVE_USERNAME_REJECTED meta) h
  = Ok (withReservation st (openWith None (Some General)), h).
Proof.
  intros Hreach Hctl.
  destruct (matched_is_reserving st meta Hreach Hctl) as [Hsame Hres].
  unfold reducer, isState. rewrite Hsame, Hres. simpl.
  repeat split; reflexivity.
Qed.

(** C8.  In every state reachable from the empty state the reservation and
    the error are never both set; setting an error clears the reservation;
    and a completion of the recorded attempt yields a state with exactly one
    of the two. *)
Theorem reservation_error_exclusive :
  (forall st : State, reachableState st ->
     ~ (is_Some (reservation (usernameReservation st)) /\
        is_Some (error (usernameReservation st)))) /\
  (forall (st : State) h e, exists st',
     reducer st (SET_USERNAME_RESERVATION_ERROR e) h = Ok (st', h) /\
     reservation (usernameReservation st') = None /\
     error (usernameReservation st') = e) /\
  (forall (st : State) h meta, reachableState st ->
     abortController (usernameReservation st) = Some meta ->
     (forall result, exists st',
        reducer st (RESERVE_USERNAME_FULFILLED (Some result) meta) h = Ok (st', h) /\
        exactlyOne (usernameReservation st')) /\
     (exists st',
        reducer st (RESERVE_USERNAME_REJECTED meta) h = Ok (st', h) /\
        exactlyOne (usernameReservation st'))).
Proof.
  split; [|split].
  - intros st Hreach [[r Hr] [e He]].
    destruct (proj2 (reachableState_wellFormed st Hreach)); congruence.
  - intros st h e. eexists. split; [reflexivity|]. split; reflexivity.
  - intros st h meta Hreach Hctl.
    destruct (matched_is_reserving st meta Hreach Hctl) as [Hsame Hres].
    unfold reducer, isState. rewrite Hsame, Hres. simpl. split.
    + intros [r | e]; eexists; (split; [reflexivity|]); simpl.
      * left. split; [now eexists | reflexivity].
      * right. split; [now eexists | reflexivity].
    + eexists. split; [reflexivity|]. right. split; [now eexists | reflexivity].
Qed.

End ReducerProperties.

(** ** Properties of the thunks and of the runs of the system *)

Section SystemProperties.

Context `{env : Env} {UsernameReservationType : Type}.

Local Abbreviation State := (@UsernameStateType UsernameReservationType).
Local Abbreviation Sys := (@System UsernameReservationType).
Local Abbreviation Action := (@UsernameActionType UsernameReservationType).

#[local] Arguments dispatch : simpl never.
#[local] Arguments reserveUsername : simpl never.
#[local] Arguments confirmUsername : simpl never.
#[local] Arguments deleteUsername : simpl never.
#[local] Arguments deleteUsername_run : simpl never.

Ltac reducer_cases :=
  unfold reducer, bind, assertDev, isState in *;
  repeat case_match; simplify_eq/=.

(** *** The heap *)

Lemma aborted_new (h : Heap) (a : AbortController) :
  aborted (h ++ [false]) a = aborted h a.
Proof.
  unfold aborted, Heap, AbortController in *.
  destruct (decide (a < length h)) as [Hlt | Hge].
  - now rewrite lookup_app_l.
  - rewrite (lookup_ge_None_2 h a) by lia.
    destruct (decide (a = length h)) as [-> | Hne].
    + now rewrite list_lookup_middle.
    + rewrite lookup_ge_None_2; [reflexivity|]. rewrite length_app. simpl. lia.
Qed.

Lemma aborted_abort_other (h : Heap) (a b : AbortController) :
  a <> b -> aborted (abort b h) a = aborted h a.
Proof.
  intros Hne. unfold aborted, abort, Heap, AbortController in *.
  now rewrite list_lookup_insert_ne.
Qed.

Lemma aborted_abort_mono (h : Heap) (a b : AbortController) :
  aborted h a = true -> aborted (abort b h) a = true.
Proof.
  intros Ha. destruct (decide (a = b)) as [-> | Hne].
  - unfold aborted, abort, Heap, AbortController in *.
    destruct (h !! b) eqn:E; [|discriminate].
    rewrite list_lookup_insert_eq; [reflexivity|].
    now apply lookup_lt_Some in E.
  - now rewrite aborted_abort_other.
Qed.

Lemma aborted_abortOpt_mono (h : Heap) (a : AbortController) oa :
  aborted h a = true -> aborted (abortOpt oa h) a = true.
Proof. destruct oa; simpl; [apply aborted_abort_mono | trivial]. Qed.

Lemma length_abortOpt (h : Heap) oa : length (abortOpt oa h) = length h.
Proof. destruct oa; simpl; [apply length_insert | reflexivity]. Qed.

(** *** What one dispatch does *)

Lemma reducer_effect (st st' : State) (action : Action) (h h' : Heap) :
  reducer st action h = Ok (st', h') ->
  match action with
  | RESERVE_USERNAME_PENDING meta =>
      h' = abortOpt (abortController (usernameReservation st)) h /\
      abortController (usernameReservation st') = Some meta
  | _ =>
      h' = h /\
      (abortController (usernameReservation st') = None \/
       abortController (usernameReservation st')
       = abortController (usernameReservation st))
  end.
Proof.
  intros Hred. destruct action; reducer_cases; auto.
Qed.

Lemma reducer_toast_returns (st : State) (t : ToastType) (h : Heap) :
  reducer st (showToast t) h = Ok (st, h).
Proof. reflexivity. Qed.

Lemma dispatch_frame (action : Action) (s : Sys) :
  let s' := after (dispatch action s) in
  runs s' = runs s /\ calls s' = calls s /\ meUsername s' = meUsername s /\
  confirming s' = confirming s /\ deleting s' = deleting s /\
  dispatched s' = action :: dispatched s.
Proof.
  unfold dispatch. destruct (reducer _ _ _) as [[st h]|e]; simpl; auto 10.
Qed.

Lemma dispatch_store (action : Action) (s : Sys) :
  (exists st h, reducer (store s) action (heap s) = Ok (st, h) /\
     store (after (dispatch action s)) = st /\
     heap (after (dispatch action s)) = h) \/
  (store (after (dispatch action s)) = store s /\
   heap (after (dispatch action s)) = heap s).
Proof.
  unfold dispatch. destruct (reducer _ _ _) as [[st h]|e] eqn:E; simpl.
  - left. eauto.
  - right. auto.
Qed.

Lemma reserveIssued_cons (a : AbortController) (c : RemoteCall)
    (cs : list (@RemoteCall UsernameReservationType)) :
  reserveIssued a (c :: cs) ->
  (exists p n, c = DoReserveUsername p n a) \/ reserveIssued a cs.
Proof.
  intros [p [n [Heq | Hin]]]; [left | right]; unfold reserveIssued; eauto.
Qed.

Lemma invariant_dispatch (action : Action) (s : Sys) :
  invariant s ->
  (forall meta, action <> RESERVE_USERNAME_PENDING meta) ->
  action <> DELETE_USERNAME_REJECTED ->
  invariant (after (dispatch action s)).
Proof.
  intros (Hlen & Hcur & Hcalls & Htrace) Hnp Hnr.
  destruct (dispatch_frame action s) as (Hr & Hc & _ & _ & _ & Hd).
  unfold invariant, current. rewrite Hr, Hc, Hd.
  assert (Hheap : heap (after (dispatch action s)) = heap s /\
    (abortController (usernameReservation (store (after (dispatch action s)))) = None \/
     abortController (usernameReservation (store (after (dispatch action s))))
     = current s)).
  { destruct (dispatch_store action s) as [(st & h & Hred & -> & ->) | [-> ->]].
    - apply reducer_effect in Hred.
      destruct action; try exact Hred. now destruct (Hnp meta).
    - auto. }
  destruct Hheap as [-> Hctl].
  split; [assumption | split; [|split; [assumption|]]].
  - intros a Ha. destruct Hctl as [Hn | He]; [congruence|].
    rewrite He in Ha. now apply Hcur.
  - intros [Heq | Hin]; [congruence | contradiction].
Qed.

(** *** The invariant holds along every run *)

Lemma invariant_initial (me : option string) :
  invariant (initialSystem (UsernameReservationType := UsernameReservationType) me).
Proof.
  unfold invariant, current, reserveIssued. simpl.
  split; [reflexivity | split; [discriminate | split]].
  - intros a (p & n & []).
  - tauto.
Qed.

Lemma invariant_setMe (s : Sys) (me : option string) :
  invariant s -> invariant (setMe s me).
Proof. trivial. Qed.

Lemma invariant_setPending (s : Sys) (c d : nat) :
  invariant s -> invariant (setPending s c d).
Proof. trivial. Qed.

Lemma invariant_setPhase (s : Sys) (a : AbortController) (r : ReserveRun)
    (p : RunPhase) :
  invariant s -> p <> Sleeping -> invariant (setPhase s a r p).
Proof.
  intros (Hlen & Hcur & Hcalls & Htrace) Hp.
  unfold invariant, current, setPhase. simpl.
  split; [|split; [exact Hcur | split]].
  - now rewrite length_insert.
  - intros b Hb. destruct (Hcalls b Hb) as (rb & Hrb & Hphase).
    destruct (decide (a = b)) as [-> | Hne].
    + exists (mkRun (runUsername r) (runNickname r) p). split; [|exact Hp].
      apply list_lookup_insert_eq. now apply lookup_lt_Some in Hrb.
    + exists rb. split; [|assumption]. now rewrite list_lookup_insert_ne.
  - assumption.
Qed.

Lemma invariant_issue_reserve (s : Sys) (a : AbortController) (r : ReserveRun)
    (p : option string) (n : string) :
  invariant s -> runs s !! a = Some r -> phase r <> Sleeping ->
  invariant (issue s (DoReserveUsername p n a)).
Proof.
  intros (Hlen & Hcur & Hcalls & Htrace) Hr Hp.
  unfold invariant, current. simpl.
  split; [assumption | split; [exact Hcur | split; [|assumption]]].
  intros b Hb. apply reserveIssued_cons in Hb as [(p' & n' & [= _ _ ->]) | Hb].
    + eauto.
    + now apply Hcalls.
Qed.

Lemma invariant_issue_other (s : Sys) (c : RemoteCall) :
  invariant s -> (forall p n a, c <> DoReserveUsername p n a) ->
  invariant (issue s c).
Proof.
  intros (Hlen & Hcur & Hcalls & Htrace) Hc.
  unfold invariant, current. simpl.
  split; [assumption | split; [exact Hcur | split; [|assumption]]].
  intros b Hb. apply reserveIssued_cons in Hb as [(p' & n' & Heq) | Hb].
    + now destruct (Hc p' n' b).
    + now apply Hcalls.
Qed.

Lemma reserveUsername_valid (nickname : string) (s : Sys) :
  truthy (Some nickname) = true -> isValidNickname nickname = true ->
  reserveUsername nickname s = Returned (reserving nickname s).
Proof.
  intros Ht Hv. unfold reserveUsername. rewrite Ht, Hv. reflexivity.
Qed.

Lemma invariant_reserving (nickname : string) (s : Sys) :
  invariant s -> invariant (reserving nickname s).
Proof.
  intros (Hlen & Hcur & Hcalls & Htrace).
  unfold invariant, current, reserving. simpl.
  split; [|split; [|split]].
  - rewrite length_abortOpt, !length_app. simpl. lia.
  - intros a [= <-]. split.
    { rewrite length_abortOpt, length_app. simpl. lia. }
    assert (Hfresh : aborted (heap s ++ [false]) (length (heap s)) = false).
    { rewrite aborted_new. unfold aborted, Heap, AbortController in *.
      now rewrite lookup_ge_None_2. }
    unfold current. destruct (abortController _) as [a0|] eqn:E; simpl; [|exact Hfresh].
    rewrite aborted_abort_other; [exact Hfresh|].
    destruct (Hcur a0 E) as [Ha0 _]. lia.
  - intros b Hb. destruct (Hcalls b Hb) as (rb & Hrb & Hphase).
    exists rb. split; [|assumption]. now apply lookup_app_l_Some.
  - intros [Heq | Hin]; [discriminate | contradiction].
Qed.

Lemma invariant_reserveUsername (nickname : string) (s : Sys) :
  invariant s -> invariant (after (reserveUsername nickname s)).
Proof.
  intros Hinv. unfold reserveUsername.
  destruct (truthy (Some nickname)) eqn:Ht; cbn [negb]; [|exact Hinv].
  destruct (isValidNickname nickname) eqn:Hv; cbn [negb].
  - change (invariant (reserving nickname s)). now apply invariant_reserving.
  - destruct (getNicknameInvalidError (Some nickname)).
    + apply invariant_dispatch; [assumption | discriminate | discriminate].
    + destruct (assertDev false _); cbv beta iota; [|exact Hinv].
      apply invariant_dispatch; [assumption | discriminate | discriminate].
Qed.

Lemma invariant_confirmUsername (s : Sys) :
  invariant s -> invariant (after (confirmUsername s)).
Proof.
  intros Hinv. unfold confirmUsername.
  destruct (reservation _) as [r|].
  - assert (Hd : invariant (after (dispatch CONFIRM_USERNAME_PENDING
                                     (issue s (DoConfirmUsername r))))).
    { apply invariant_dispatch; [|discriminate|discriminate].
      apply invariant_issue_other; [assumption | discriminate]. }
    destruct (dispatch _ _); cbn [after] in *;
    [now apply invariant_setPending | assumption].
  - destruct (assertDev false _); cbv beta iota; [|exact Hinv].
    apply invariant_dispatch; [assumption | discriminate | discriminate].
Qed.

Lemma invariant_deleteUsername (d : option string) (s : Sys) :
  invariant s -> invariant (after (deleteUsername d s)).
Proof.
  intros Hinv. unfold deleteUsername.
  destruct (truthy _); cbn [negb]; [|exact Hinv].
  destruct (nullish _ _) as [u|]; [|exact Hinv].
  assert (Hd : invariant (after (dispatch DELETE_USERNAME_PENDING
                                   (issue s (DoDeleteUsername u))))).
  { apply invariant_dispatch; [|discriminate|discriminate].
    apply invariant_issue_other; [assumption | discriminate]. }
  destruct (dispatch _ _); cbn [after] in *;
    [now apply invariant_setPending | assumption].
Qed.

(** [run] of [deleteUsername] never rejects: the toast dispatch returns. *)
Lemma deleteUsername_run_resolves (remote : Settled unit) (s : Sys) :
  deleteUsername_run remote s
  = (Resolved tt,
     match remote with
     | Resolved _ => s
     | Rejected => setStore s (store s) (heap s) (showToast FailedToDeleteUsername)
     end).
Proof. destruct remote; reflexivity. Qed.

Lemma invariant_step (s s' : Sys) (ev : Event) :
  invariant s -> step s ev = Some s' -> invariant s'.
Proof.
  intros Hinv Hstep. destruct ev; cbn [step] in Hstep.
  - apply (inj Some) in Hstep; subst s'. apply invariant_dispatch; [assumption|discriminate|discriminate].
  - apply (inj Some) in Hstep; subst s'. apply invariant_dispatch; [assumption|discriminate|discriminate].
  - apply (inj Some) in Hstep; subst s'. apply invariant_dispatch; [assumption|discriminate|discriminate].
  - apply (inj Some) in Hstep; subst s'. apply invariant_dispatch; [assumption|discriminate|discriminate].
  - apply (inj Some) in Hstep; subst s'. now apply invariant_reserveUsername.
  - apply (inj Some) in Hstep; subst s'. now apply invariant_confirmUsername.
  - apply (inj Some) in Hstep; subst s'. now apply invariant_deleteUsername.
  - apply (inj Some) in Hstep; subst s'. now apply invariant_setMe.
  - unfold sleepElapsed in Hstep.
    destruct (runs s !! a) as [r|] eqn:Hr; [|discriminate].
    destruct (phase r); try discriminate.
    destruct (aborted _ _); [discriminate|]. apply (inj Some) in Hstep; subst s'.
    eapply invariant_issue_reserve.
    + apply invariant_setPhase; [assumption | discriminate].
    + unfold setPhase, setRuns. simpl. apply list_lookup_insert_eq.
      now apply lookup_lt_Some in Hr.
    + discriminate.
  - unfold sleepAborted in Hstep.
    destruct (runs s !! a) as [r|] eqn:Hr; [|discriminate].
    destruct (phase r); try discriminate.
    destruct (aborted _ _); [|discriminate]. apply (inj Some) in Hstep; subst s'.
    apply invariant_dispatch; [|discriminate|discriminate].
    apply invariant_setPhase; [assumption | discriminate].
  - unfold reserveSettled in Hstep.
    destruct (runs s !! a) as [r|] eqn:Hr; [|discriminate].
    destruct (phase r); try discriminate. apply (inj Some) in Hstep; subst s'.
    destruct remote; cbn [settle];
      (apply invariant_dispatch; [|discriminate|discriminate]);
      (apply invariant_setPhase; [assumption | discriminate]).
  - unfold confirmSettled in Hstep.
    destruct (confirming s); [discriminate|]. apply (inj Some) in Hstep; subst s'.
    destruct remote; cbn [settle];
      (apply invariant_dispatch; [|discriminate|discriminate]);
      now apply invariant_setPending.
  - unfold deleteSettled in Hstep.
    destruct (deleting s); [discriminate|].
    rewrite deleteUsername_run_resolves in Hstep. apply (inj Some) in Hstep; subst s'.
    cbn [settle]. apply invariant_dispatch; [|discriminate|discriminate].
    destruct remote.
    + now apply invariant_setPending.
    + apply (invariant_dispatch (showToast FailedToDeleteUsername)
               (setPending s (confirming s) n));
        [now apply invariant_setPending | discriminate | discriminate].
Qed.

Lemma invariant_exec (evs : list Event) (s s' : Sys) :
  invariant s -> exec s evs = Some s' -> invariant s'.
Proof.
  revert s. induction evs as [|ev evs IH]; intros s Hinv Hexec; simpl in Hexec.
  - now injection Hexec as <-.
  - destruct (step s ev) as [s1|] eqn:Hstep; [|discriminate].
    eapply IH; [|eassumption]. eapply invariant_step; eassumption.
Qed.

Lemma invariant_reachable (s : Sys) : reachable s -> invariant s.
Proof.
  intros (me & evs & Hexec).
  eapply invariant_exec; [apply invariant_initial | eassumption].
Qed.

(** *** Completions of superseded attempts *)

Lemma dispatch_stale_fulfilled (s : Sys) (a : AbortController)
    (payload : option ReserveUsernameResultType) :
  current s <> Some a ->
  dispatch (RESERVE_USERNAME_FULFILLED payload a) s
  = Returned (setStore s (store s) (heap s) (RESERVE_USERNAME_FULFILLED payload a)).
Proof.
  intros Hne. unfold dispatch.
  now rewrite reducer_stale_fulfilled.
Qed.

Lemma dispatch_stale_rejected (s : Sys) (a : AbortController) :
  current s <> Some a ->
  dispatch (RESERVE_USERNAME_REJECTED a) s
  = Returned (setStore s (store s) (heap s) (RESERVE_USERNAME_REJECTED a)).
Proof.
  intros Hne. unfold dispatch.
  now rewrite reducer_stale_rejected.
Qed.

(** An event of an attempt whose controller is not the recorded one leaves
    the store and the heap as they are. *)
Lemma stale_event_frame (s s' : Sys) (a : AbortController) (ev : Event) :
  current s <> Some a -> attemptOf ev = Some a -> step s ev = Some s' ->
  store s' = store s /\ heap s' = heap s.
Proof.
  intros Hne Hev Hstep. destruct ev; try discriminate;
    injection Hev as ->; cbn [step] in Hstep.
  - unfold sleepElapsed in Hstep.
    destruct (runs s !! a) as [r|]; [|discriminate].
    destruct (phase r); try discriminate.
    destruct (aborted _ _); [discriminate|].
    apply (inj Some) in Hstep; subst s'. split; reflexivity.
  - unfold sleepAborted in Hstep.
    destruct (runs s !! a) as [r|]; [|discriminate].
    destruct (phase r); try discriminate.
    destruct (aborted _ _); [|discriminate].
    apply (inj Some) in Hstep; subst s'. cbn [settle].
    rewrite dispatch_stale_fulfilled by exact Hne. split; reflexivity.
  - unfold reserveSettled in Hstep.
    destruct (runs s !! a) as [r|]; [|discriminate].
    destruct (phase r); try discriminate.
    apply (inj Some) in Hstep; subst s'. destruct remote; cbn [settle].
    + rewrite dispatch_stale_fulfilled by exact Hne. split; reflexivity.
    + rewrite dispatch_stale_rejected by exact Hne. split; reflexivity.
Qed.

(** C1.  A reserve completion, fulfilled or rejected, whose controller is
    not the one recorded in the state is answered with the state (and the
    heap) unchanged.  The recorded controller is always the one of the
    newest attempt, so in a run of the system an event of any older attempt
    leaves the store as it is. *)
Theorem stale_reserve_completion_ignored :
  (forall (st : State) (h : Heap) payload meta,
     abortController (usernameReservation st) <> Some meta ->
     reducer st (RESERVE_USERNAME_FULFILLED payload meta) h = Ok (st, h) /\
     reducer st (RESERVE_USERNAME_REJECTED meta) h = Ok (st, h)) /\
  (forall (s s' : Sys) (a : AbortController) (ev : Event),
     reachable s -> attemptOf ev = Some a -> S a <> length (heap s) ->
     step s ev = Some s' ->
     store s' = store s /\ heap s' = heap s).
Proof.
  split.
  - intros st h payload meta Hne. split.
    + now apply reducer_stale_fulfilled.
    + now apply reducer_stale_rejected.
  - intros s s' a ev Hreach Hev Hold Hstep.
    apply (stale_event_frame s s' a ev); [|assumption|assumption].
    intros Hcur.
    destruct (invariant_reachable s Hreach) as (_ & Hnewest & _).
    destruct (Hnewest a Hcur) as [Hlast _]. contradiction.
Qed.

(** *** Attempts aborted in their sleep *)

Lemma abortedAsleep_frame (a : AbortController) (s s' : Sys) :
  heap s' = heap s -> calls s' = calls s -> runs s' = runs s ->
  abortedAsleep a s -> abortedAsleep a s'.
Proof.
  intros Hh Hc Hr. unfold abortedAsleep. now rewrite Hh, Hc, Hr.
Qed.

Lemma abortedAsleep_dispatch (a : AbortController) (action : Action) (s : Sys) :
  abortedAsleep a s -> abortedAsleep a (after (dispatch action s)).
Proof.
  intros (Hab & Hcalls & Hrun).
  destruct (dispatch_frame action s) as (Hr & Hc & _).
  unfold abortedAsleep. rewrite Hr, Hc. split; [|auto].
  destruct (dispatch_store action s) as [(st & h & Hred & _ & ->) | [_ ->]];
    [|assumption].
  apply reducer_effect in Hred.
  destruct action; try (destruct Hred as [-> _]; assumption).
  destruct Hred as [-> _]. now apply aborted_abortOpt_mono.
Qed.

Lemma abortedAsleep_setPhase (a b : AbortController) (r : ReserveRun)
    (p : RunPhase) (s : Sys) :
  abortedAsleep a s -> p <> AwaitingReserve \/ b <> a ->
  abortedAsleep a (setPhase s b r p).
Proof.
  intros (Hab & Hcalls & ra & Hra & Hphase) Hp.
  unfold abortedAsleep, setPhase. simpl. split; [assumption | split; [assumption|]].
  destruct (decide (b = a)) as [-> | Hne].
  - destruct Hp as [Hp | Hp]; [|contradiction].
    exists (mkRun (runUsername r) (runNickname r) p). split; [|exact Hp].
    apply list_lookup_insert_eq. now apply lookup_lt_Some in Hra.
  - exists ra. split; [|assumption]. now rewrite list_lookup_insert_ne.
Qed.

Lemma abortedAsleep_issue (a : AbortController) (c : RemoteCall) (s : Sys) :
  abortedAsleep a s -> (forall p n, c <> DoReserveUsername p n a) ->
  abortedAsleep a (issue s c).
Proof.
  intros (Hab & Hcalls & Hrun) Hc.
  unfold abortedAsleep. simpl. split; [assumption | split; [|assumption]].
  intros Hb. apply reserveIssued_cons in Hb as [(p & n & Heq) | Hb].
  - now destruct (Hc p n).
  - contradiction.
Qed.

Lemma abortedAsleep_reserving (a : AbortController) (nickname : string) (s : Sys) :
  abortedAsleep a s -> abortedAsleep a (reserving nickname s).
Proof.
  intros (Hab & Hcalls & ra & Hra & Hphase).
  unfold abortedAsleep, reserving. simpl. split; [|split; [assumption|]].
  - apply aborted_abortOpt_mono. now rewrite aborted_new.
  - exists ra. split; [|assumption]. now apply lookup_app_l_Some.
Qed.

Lemma abortedAsleep_step (a : AbortController) (s s' : Sys) (ev : Event) :
  abortedAsleep a s -> step s ev = Some s' -> abortedAsleep a s'.
Proof.
  intros Has Hstep. destruct ev; cbn [step] in Hstep.
  - apply (inj Some) in Hstep; subst s'. now apply abortedAsleep_dispatch.
  - apply (inj Some) in Hstep; subst s'. now apply abortedAsleep_dispatch.
  - apply (inj Some) in Hstep; subst s'. now apply abortedAsleep_dispatch.
  - apply (inj Some) in Hstep; subst s'. now apply abortedAsleep_dispatch.
  - apply (inj Some) in Hstep; subst s'. unfold reserveUsername.
    destruct (truthy (Some nickname)); cbn [negb]; [|exact Has].
    destruct (isValidNickname nickname); cbn [negb].
    + change (abortedAsleep a (reserving nickname s)).
      now apply abortedAsleep_reserving.
    + destruct (getNicknameInvalidError (Some nickname)).
      * now apply abortedAsleep_dispatch.
      * destruct (assertDev false _); cbv beta iota; [|exact Has].
        now apply abortedAsleep_dispatch.
  - apply (inj Some) in Hstep; subst s'. unfold confirmUsername.
    destruct (reservation _) as [r|].
    + assert (Hd : abortedAsleep a (after (dispatch CONFIRM_USERNAME_PENDING
                                             (issue s (DoConfirmUsername r))))).
      { apply abortedAsleep_dispatch.
        apply abortedAsleep_issue; [assumption | discriminate]. }
      destruct (dispatch _ _); cbn [after] in *; assumption.
    + destruct (assertDev false _); cbv beta iota; [|exact Has].
      now apply abortedAsleep_dispatch.
  - apply (inj Some) in Hstep; subst s'. unfold deleteUsername.
    destruct (truthy _); cbn [negb]; [|exact Has].
    destruct (nullish _ _) as [u|]; [|exact Has].
    assert (Hd : abortedAsleep a (after (dispatch DELETE_USERNAME_PENDING
                                           (issue s (DoDeleteUsername u))))).
    { apply abortedAsleep_dispatch.
      apply abortedAsleep_issue; [assumption | discriminate]. }
    destruct (dispatch _ _); cbn [after] in *; assumption.
  - apply (inj Some) in Hstep; subst s'. exact Has.
  - unfold sleepElapsed in Hstep.
    destruct (runs s !! a0) as [r|] eqn:Hr; [|discriminate].
    destruct (phase r); try discriminate.
    destruct (aborted (heap s) a0) eqn:Hab0; [discriminate|].
    apply (inj Some) in Hstep; subst s'.
    assert (Hne : a0 <> a).
    { intros ->. destruct Has as [Hab _]. congruence. }
    apply abortedAsleep_issue.
    + apply abortedAsleep_setPhase; [assumption | now right].
    + intros p n [= _ _ Heq]. contradiction.
  - unfold sleepAborted in Hstep.
    destruct (runs s !! a0) as [r|] eqn:Hr; [|discriminate].
    destruct (phase r); try discriminate.
    destruct (aborted _ _); [|discriminate].
    apply (inj Some) in Hstep; subst s'. cbn [settle].
    apply abortedAsleep_dispatch.
    apply abortedAsleep_setPhase; [assumption | left; discriminate].
  - unfold reserveSettled in Hstep.
    destruct (runs s !! a0) as [r|] eqn:Hr; [|discriminate].
    destruct (phase r); try discriminate.
    apply (inj Some) in Hstep; subst s'.
    destruct remote; cbn [settle]; apply abortedAsleep_dispatch;
      (apply abortedAsleep_setPhase; [assumption | left; discriminate]).
  - unfold confirmSettled in Hstep.
    destruct (confirming s); [discriminate|].
    apply (inj Some) in Hstep; subst s'.
    destruct remote; cbn [settle]; now apply abortedAsleep_dispatch.
  - unfold deleteSettled in Hstep.
    destruct (deleting s); [discriminate|].
    rewrite deleteUsername_run_resolves in Hstep.
    apply (inj Some) in Hstep; subst s'. cbn [settle].
    apply abortedAsleep_dispatch. destruct remote; [exact Has|].
    apply (abortedAsleep_dispatch a (showToast FailedToDeleteUsername)
             (setPending s (confirming s) n)).
    exact Has.
Qed.

Lemma abortedAsleep_exec (a : AbortController) (evs : list Event) (s s' : Sys) :
  abortedAsleep a s -> exec s evs = Some s' -> abortedAsleep a s'.
Proof.
  revert s. induction evs as [|ev evs IH]; intros s Has Hexec; simpl in Hexec.
  - now injection Hexec as <-.
  - destruct (step s ev) as [s1|] eqn:Hstep; [|discriminate].
    eapply IH; [|eassumption]. eapply abortedAsleep_step; eassumption.
Qed.

(** C4.  Take an attempt that is still in its sleep.  A superseding valid
    [reserveUsername] aborts its controller while it sleeps on.  And once
    its controller is aborted, however the system goes on, the reserve call
    of that attempt is never among the calls issued, and every event of the
    attempt leaves the store, the heap and the calls as they are. *)
Theorem aborted_in_delay_never_calls (s : Sys) (a : AbortController)
    (r : ReserveRun) :
  reachable s -> runs s !! a = Some r -> phase r = Sleeping ->
  (forall nickname,
     current s = Some a ->
     truthy (Some nickname) = true -> isValidNickname nickname = true ->
     let s1 := after (reserveUsername nickname s) in
     aborted (heap s1) a = true /\ runs s1 !! a = Some r) /\
  (aborted (heap s) a = true ->
   forall evs s', exec s evs = Some s' ->
     ~ reserveIssued a (calls s') /\
     (forall ev s'', attemptOf ev = Some a -> step s' ev = Some s'' ->
        store s'' = store s' /\ heap s'' = heap s' /\ calls s'' = calls s')).
Proof.
  intros Hreach Hrun Hphase.
  pose proof (invariant_reachable s Hreach) as Hinv. split.
  - intros nickname Hcur Ht Hv s1. subst s1.
    rewrite (reserveUsername_valid nickname s Ht Hv). simpl. split.
    + rewrite Hcur. simpl. unfold aborted, abort, Heap, AbortController in *.
      rewrite list_lookup_insert_eq; [reflexivity|].
      rewrite length_app. destruct Hinv as (_ & Hnewest & _).
      destruct (Hnewest a Hcur) as [Hlast _]. lia.
    + now apply lookup_app_l_Some.
  - intros Hab evs s' Hexec.
    assert (Has : abortedAsleep a s).
    { split; [assumption | split].
      - intros Hissued. destruct Hinv as (_ & _ & Hcalls & _).
        destruct (Hcalls a Hissued) as (r' & Hr' & Hp'). congruence.
      - exists r. split; [assumption | congruence]. }
    pose proof (abortedAsleep_exec a evs s s' Has Hexec) as (Hab' & Hcalls' & r' & Hr' & Hp').
    pose proof (invariant_exec evs s s' Hinv Hexec) as (_ & Hnewest' & _).
    split; [assumption|].
    intros ev s'' Hev Hstep.
    assert (Hstale : current s' <> Some a).
    { intros Hcur. destruct (Hnewest' a Hcur) as [_ Hlive]. congruence. }
    destruct (stale_event_frame s' s'' a ev Hstale Hev Hstep) as [Hst Hh].
    split; [assumption | split; [assumption|]].
    destruct ev; try discriminate; injection Hev as ->; cbn [step] in Hstep.
    + unfold sleepElapsed in Hstep. rewrite Hr', Hab' in Hstep.
      destruct (phase r'); discriminate.
    + unfold sleepAborted in Hstep. rewrite Hr', Hab' in Hstep.
      destruct (phase r'); try discriminate.
      apply (inj Some) in Hstep; subst s''. cbn [settle].
      now destruct (dispatch_frame (RESERVE_USERNAME_FULFILLED None a)
                      (setPhase s' a r' Returned_)) as (_ & -> & _).
    + unfold reserveSettled in Hstep. rewrite Hr' in Hstep.
      destruct (phase r'); try discriminate. contradiction.
Qed.

(** C5.  [reserveUsername] with the empty nickname returns at once and
    leaves the system as it is.  With a non-empty nickname that is not
    valid it issues no call, makes no controller and starts no run; and
    when the helper names an error for the nickname, it records that error
    (and no reservation) in the state and returns. *)
Theorem reserveUsername_rejects_before_network (s : Sys) :
  reserveUsername "" s = Returned s /\
  (forall nickname,
     nickname <> "" ->
     isValidNickname nickname = false ->
     let s1 := after (reserveUsername nickname s) in
     calls s1 = calls s /\ runs s1 = runs s /\ heap s1 = heap s /\
     confirming s1 = confirming s /\ deleting s1 = deleting s) /\
  (forall nickname e,
     nickname <> "" ->
     isValidNickname nickname = false ->
     getNicknameInvalidError (Some nickname) = Some e ->
     exists s',
       reserveUsername nickname s = Returned s' /\
       store s' = withReservation (store s)
         {| state := state (usernameReservation (store s));
            reservation := None;
            error := Some e;
            abortController := abortController (usernameReservation (store s)) |}).
Proof.
  split; [reflexivity|].
  assert (Ht : forall nickname, nickname <> "" -> truthy (Some nickname) = true)
    by (intros [|c n] Hne; [congruence | reflexivity]).
  split.
  - intros nickname Hne Hinvalid s1. subst s1.
    unfold reserveUsername. rewrite (Ht nickname Hne), Hinvalid. cbn [negb].
    destruct (getNicknameInvalidError (Some nickname)) as [e|].
    + simpl. auto.
    + unfold assertDev. destruct isProduction; simpl; auto.
  - intros nickname e Hne Hinvalid Herr.
    unfold reserveUsername. rewrite (Ht nickname Hne), Hinvalid, Herr. cbn [negb].
    eexists. split; reflexivity.
Qed.

(** C6, as amended.  [confirmUsername] issues the remote confirm call only
    when the state holds a reservation.  When it holds none, no call is
    issued and no confirmation is pending; in a production build the error
    [General] is recorded; in any other build the assertion throws before
    the error is dispatched, and the system stays as it was. *)
Theorem confirmUsername_without_reservation (s : Sys) :
  calls (after (confirmUsername s))
  = match reservation (usernameReservation (store s)) with
    | Some r => DoConfirmUsername r :: calls s
    | None => calls s
    end /\
  (reservation (usernameReservation (store s)) = None ->
     confirming (after (confirmUsername s)) = confirming s /\
     (isProduction = true ->
        exists s', confirmUsername s = Returned s' /\
          error (usernameReservation (store s')) = Some General /\
          reservation (usernameReservation (store s')) = None) /\
     (isProduction = false ->
        confirmUsername s = Thrown (AssertionError "This should not happen") s)).
Proof.
  unfold confirmUsername. split.
  - destruct (reservation _) as [r|].
    + destruct (dispatch_frame CONFIRM_USERNAME_PENDING
                  (issue s (DoConfirmUsername r))) as (_ & Hc & _).
      destruct (dispatch _ _); cbn [after] in *; exact Hc.
    + unfold assertDev. destruct isProduction; reflexivity.
  - intros ->. unfold assertDev. split; [|split].
    + destruct isProduction; reflexivity.
    + intros ->. eexists. split; [reflexivity|]. split; reflexivity.
    + intros ->. reflexivity.
Qed.



(** C10.  The promise of the [DELETE_USERNAME] action never rejects: [run]
    resolves whatever the remote delete call does, having dispatched the
    toast when the call failed.  So the rejected action is never dispatched
    in any run of the system, and the assertion of its reducer branch is
    never evaluated. *)
Theorem delete_promise_never_rejects :
  (forall (remote : Settled unit) (s : Sys),
     fst (deleteUsername_run remote s) = Resolved tt) /\
  (forall s : Sys,
     dispatched (snd (deleteUsername_run Rejected s))
     = showToast FailedToDeleteUsername :: dispatched s) /\
  (forall s : Sys, reachable s ->
     ~ In DELETE_USERNAME_REJECTED (dispatched s)).
Proof.
  split; [|split].
  - intros remote s. now rewrite deleteUsername_run_resolves.
  - intros s. reflexivity.
  - intros s Hreach.
    now destruct (invariant_reachable s Hreach) as (_ & _ & _ & Htrace).
Qed.

End SystemProperties.

(** ** The results at concrete nicknames, states and runs *)

Example nickname_too_short :
  getNicknameInvalidError (env := developmentBuild) (Some "ab")
  = Some NotEnoughCharacters.
Proof. reflexivity. Qed.

Example nickname_starts_with_digit :
  getNicknameInvalidError (env := developmentBuild) (Some "1abc")
  = Some CheckStartingCharacter.
Proof. reflexivity. Qed.

Example nickname_with_illegal_character :
  getNicknameInvalidError (env := developmentBuild) (Some "abc!")
  = Some CheckCharacters.
Proof. reflexivity. Qed.

Example nickname_too_long :
  getNicknameInvalidError (env := shortNamesBuild) (Some "abcdefgh")
  = Some TooManyCharacters.
Proof. reflexivity. Qed.

Example nickname_accepted :
  getNicknameInvalidError (env := developmentBuild) (Some "valid_name") = None.
Proof. reflexivity. Qed.

Example reserve_then_confirm :
  let s := systemAfter developmentBuild
             [UiOpenModal; UiReserve "valid_name"; SleepElapsed 0;
              ReserveSettled 0 (Resolved (ResultOk "valid_name.01"))] in
  usernameReservation (store s) = openWith (Some "valid_name.01") None /\
  usernameReservation
    (store (systemAfter developmentBuild
              [UiOpenModal; UiReserve "valid_name"; SleepElapsed 0;
               ReserveSettled 0 (Resolved (ResultOk "valid_name.01"));
               UiConfirm; ConfirmSettled (Resolved tt)]))
  = closedReservation.
Proof. split; reflexivity. Qed.

(** Closing the modal drops the recorded controller without aborting it: a
    later [reserveUsername] then finds nothing to abort, and the earlier
    attempt still issues its call (whose completion is discarded). *)
Example attempt_outlives_closed_modal :
  let s := systemAfter developmentBuild
             [UiOpenModal; UiReserve "abc"; UiCloseModal; UiOpenModal;
              UiReserve "abcd"] in
  heap s = [false; false] /\
  calls <$> step (env := developmentBuild) s (SleepElapsed 0)
  = Some [DoReserveUsername None "abc" 0].
Proof. split; reflexivity. Qed.

Example superseded_attempt_is_aborted :
  let s := systemAfter developmentBuild supersedingEvents in
  heap s = [true; false] /\ current s = Some 1 /\
  step (env := developmentBuild) s (SleepElapsed 0) = None.
Proof. repeat split; reflexivity. Qed.



Lemma reachable_systemAfter (env : Env) (evs : list Event) :
  is_Some (exec (initialSystem None) evs) -> reachable (systemAfter env evs).
Proof.
  intros [s Hs]. exists None, evs. unfold systemAfter. now rewrite Hs.
Qed.

Lemma reachableState_reserving (env : Env) : reachableState reservingState.
Proof.
  apply (reach_step getEmptyState (RESERVE_USERNAME_PENDING 0) [false]
           reservingState [false] reach_empty).
  reflexivity.
Qed.

Lemma stale_reserve_completion_ignored_witness :
  let s := systemAfter developmentBuild overtakingEvents in
  (reducer (env := developmentBuild) (store s)
     (RESERVE_USERNAME_FULFILLED (Some (ResultOk "abc.01")) 0) (heap s)
   = Ok (store s, heap s)) /\
  (forall s',
     step (env := developmentBuild) s
       (ReserveSettled 0 (Resolved (ResultOk "abc.01"))) = Some s' ->
     store s' = store s).
Proof.
  intros s. split.
  - apply (proj1 (stale_reserve_completion_ignored (env := developmentBuild))
             (store s) (heap s) (Some (ResultOk "abc.01")) 0).
    discriminate.
  - intros s' Hstep.
    apply (proj2 (stale_reserve_completion_ignored (env := developmentBuild))
             s s' 0 (ReserveSettled 0 (Resolved (ResultOk "abc.01")))).
    + apply reachable_systemAfter. now eexists.
    + reflexivity.
    + simpl. lia.
    + exact Hstep.
Defined.

Lemma matched_reserve_completion_witness :
  reducer (env := developmentBuild) reservingState
    (RESERVE_USERNAME_FULFILLED (Some (ResultError Conflict)) 0) [false]
  = Ok (withReservation reservingState
          (openWith None (Some UsernameNotAvailable)), [false]) /\
  reducer (env := developmentBuild) reservingState
    (RESERVE_USERNAME_REJECTED 0) [false]
  = Ok (withReservation reservingState (openWith None (Some General)), [false]).
Proof.
  destruct (matched_reserve_completion (env := developmentBuild)
              reservingState [false] 0
              (reachableState_reserving developmentBuild) eq_refl)
    as (_ & _ & Hconflict & Hrejected).
  split; assumption.
Defined.

Lemma aborted_in_delay_never_calls_witness :
  let s := systemAfter developmentBuild supersedingEvents in
  aborted (heap s) 0 = true /\
  forall s', exec (env := developmentBuild) s [SleepAborted 0; SleepElapsed 1] = Some s' ->
    ~ reserveIssued 0 (calls s').
Proof.
  intros s. split; [reflexivity|]. intros s' Hexec.
  apply (proj2 (aborted_in_delay_never_calls (env := developmentBuild)
                  s 0 (mkRun None "abc" Sleeping)
                  (reachable_systemAfter developmentBuild supersedingEvents
                     (ex_intro _ _ eq_refl))
                  eq_refl eq_refl)
           eq_refl [SleepAborted 0; SleepElapsed 1] s' Hexec).
Defined.

Lemma reserveUsername_rejects_before_network_witness :
  let s := initialSystem (UsernameReservationType := string) None in
  calls (after (reserveUsername (env := developmentBuild) "abc!" s)) = [] /\
  exists s',
    reserveUsername (env := developmentBuild) "abc!" s = Returned s' /\
    error (usernameReservation (store s')) = Some CheckCharacters.
Proof.
  intros s.
  destruct (reserveUsername_rejects_before_network (env := developmentBuild) s)
    as (_ & Hquiet & Herror).
  split.
  - apply (Hquiet "abc!"); [discriminate | reflexivity].
  - destruct (Herror "abc!" CheckCharacters) as (s' & Hret & Hstore).
    + discriminate.
    + reflexivity.
    + reflexivity.
    + exists s'. split; [exact Hret | now rewrite Hstore].
Defined.

Lemma confirmUsername_without_reservation_witness :
  let s := systemAfter productionBuild [UiOpenModal] in
  exists s',
    confirmUsername (env := productionBuild) s = Returned s' /\
    error (usernameReservation (store s')) = Some General /\
    reservation (usernameReservation (store s')) = None.
Proof.
  intros s.
  apply (proj2 (confirmUsername_without_reservation (env := productionBuild) s)).
  - reflexivity.
  - reflexivity.
Defined.


Lemma reservation_error_exclusive_witness :
  ~ (is_Some (reservation (usernameReservation reservingState)) /\
     is_Some (error (usernameReservation reservingState))) /\
  (exists st',
     reducer (env := developmentBuild) reservingState
       (RESERVE_USERNAME_REJECTED 0) [false] = Ok (st', [false]) /\
     exactlyOne (usernameReservation st')).
Proof.
  split.
  - apply (proj1 (reservation_error_exclusive (env := developmentBuild))
             reservingState (reachableState_reserving developmentBuild)).
  - apply (proj2 (proj2 (reservation_error_exclusive (env := developmentBuild)))
             reservingState [false] 0
             (reachableState_reserving developmentBuild) eq_refl).
Defined.


Lemma delete_promise_never_rejects_witness :
  ~ In DELETE_USERNAME_REJECTED
      (dispatched (systemAfter developmentBuild failedDelete)).
Proof.
  apply (proj2 (proj2 (delete_promise_never_rejects (env := developmentBuild)))).
  apply reachable_systemAfter. now eexists.
Defined.

(** C6, as stated, fails in a build that is not a production build: with
    the modal open and no reservation, [confirmUsername] throws at its
    assertion and the state keeps no error. *)
Lemma confirmUsername_without_reservation_throws :
  let s := systemAfter developmentBuild [UiOpenModal] in
  reservation (usernameReservation (store s)) = None /\
  confirmUsername (env := developmentBuild) s
  = Thrown (AssertionError "This should not happen") s /\
  error (usernameReservation (store (after (confirmUsername (env := developmentBuild) s))))
  <> Some General.
Proof.
  intros s. split; [reflexivity|]. split; [reflexivity|]. discriminate.
Qed.


(** ** Further properties of the username duck *)

Section MoreUsernameProperties.

Context `{env : Env} {UsernameReservationType : Type}.

Local Abbreviation State := (@UsernameStateType UsernameReservationType).
Local Abbreviation Sys := (@System UsernameReservationType).
Local Abbreviation Action := (@UsernameActionType UsernameReservationType).

Ltac reducer_cases :=
  unfold reducer, bind, assertDev, isState in *;
  repeat case_match; simplify_eq/=.

(** A property kept by each elementary change of the system is kept by
    every event. *)
Lemma step_preserves (P : Sys -> Prop) :
  (forall s action, invariant s -> P s ->
     (forall meta, action <> RESERVE_USERNAME_PENDING meta) ->
     action <> DELETE_USERNAME_REJECTED ->
     P (after (dispatch action s))) ->
  (forall s me, P s -> P (setMe s me)) ->
  (forall s c d, P s -> P (setPending s c d)) ->
  (forall s n, invariant s -> P s -> n <> "" -> isValidNickname n = true ->
     P (reserving n s)) ->
  (forall s a r, invariant s -> P s -> runs s !! a = Some r ->
     phase r = Sleeping -> aborted (heap s) a = false ->
     P (issue (setPhase s a r AwaitingReserve)
          (DoReserveUsername (runUsername r) (runNickname r) a))) ->
  (forall s a r, invariant s -> P s -> runs s !! a = Some r ->
     phase r <> Returned_ -> P (setPhase s a r Returned_)) ->
  (forall s r, invariant s -> P s ->
     reservation (usernameReservation (store s)) = Some r ->
     P (issue s (DoConfirmUsername r))) ->
  (forall s u, invariant s -> P s -> u <> "" ->
     P (issue s (DoDeleteUsername u))) ->
  forall s ev s', invariant s -> P s -> step s ev = Some s' -> P s'.
Proof.
  intros Hdispatch Hme Hpending Hreserving Hawake Hreturned Hconfirm Hdelete
    s ev s' Hinv HP Hstep.
  assert (Hplain : forall action,
    (forall meta, action <> RESERVE_USERNAME_PENDING meta) ->
    action <> DELETE_USERNAME_REJECTED ->
    P (after (dispatch action s))) by (intros; now apply Hdispatch).
  destruct ev; cbn [step] in Hstep.
  - apply (inj Some) in Hstep; subst s'. apply Hplain; discriminate.
  - apply (inj Some) in Hstep; subst s'. apply Hplain; discriminate.
  - apply (inj Some) in Hstep; subst s'. apply Hplain; discriminate.
  - apply (inj Some) in Hstep; subst s'. apply Hplain; discriminate.
  - apply (inj Some) in Hstep; subst s'. unfold reserveUsername.
    destruct (truthy (Some nickname)) eqn:Ht; cbn [negb]; [|exact HP].
    assert (Hne : nickname <> "") by (intros ->; discriminate).
    destruct (isValidNickname nickname) eqn:Hv; cbn [negb].
    + change (P (reserving nickname s)). now apply Hreserving.
    + destruct (getNicknameInvalidError (Some nickname)).
      * apply Hplain; discriminate.
      * destruct (assertDev false _); cbv beta iota; [|exact HP].
        apply Hplain; discriminate.
  - apply (inj Some) in Hstep; subst s'. unfold confirmUsername.
    destruct (reservation _) as [r|] eqn:Hr.
    + assert (Hd : P (after (dispatch CONFIRM_USERNAME_PENDING
                               (issue s (DoConfirmUsername r))))).
      { apply Hdispatch; [|now apply Hconfirm|discriminate|discriminate].
        apply invariant_issue_other; [assumption | discriminate]. }
      destruct (dispatch _ _); cbn [after] in *; [now apply Hpending | assumption].
    + destruct (assertDev false _); cbv beta iota; [|exact HP].
      apply Hplain; discriminate.
  - apply (inj Some) in Hstep; subst s'. unfold deleteUsername.
    destruct (truthy _) eqn:Ht; cbn [negb]; [|exact HP].
    destruct (nullish _ _) as [u|]; [|exact HP].
    assert (Hne : u <> "") by (intros ->; discriminate).
    assert (Hd : P (after (dispatch DELETE_USERNAME_PENDING
                             (issue s (DoDeleteUsername u))))).
    { apply Hdispatch; [|now apply Hdelete|discriminate|discriminate].
      apply invariant_issue_other; [assumption | discriminate]. }
    destruct (dispatch _ _); cbn [after] in *; [now apply Hpending | assumption].
  - apply (inj Some) in Hstep; subst s'. now apply Hme.
  - unfold sleepElapsed in Hstep.
    destruct (runs s !! a) as [r|] eqn:Hr; [|discriminate].
    destruct (phase r) eqn:Hp; try discriminate.
    destruct (aborted (heap s) a) eqn:Hab; [discriminate|].
    apply (inj Some) in Hstep; subst s'. now apply Hawake.
  - unfold sleepAborted in Hstep.
    destruct (runs s !! a) as [r|] eqn:Hr; [|discriminate].
    destruct (phase r) eqn:Hp; try discriminate.
    destruct (aborted _ _); [|discriminate].
    apply (inj Some) in Hstep; subst s'. cbn [settle].
    apply Hdispatch; [| |discriminate|discriminate].
    + apply invariant_setPhase; [assumption | discriminate].
    + apply Hreturned; [assumption..|]. congruence.
  - unfold reserveSettled in Hstep.
    destruct (runs s !! a) as [r|] eqn:Hr; [|discriminate].
    destruct (phase r) eqn:Hp; try discriminate.
    apply (inj Some) in Hstep; subst s'.
    assert (Hi : invariant (setPhase s a r Returned_))
      by (apply invariant_setPhase; [assumption | discriminate]).
    assert (HP' : P (setPhase s a r Returned_))
      by (apply Hreturned; [assumption..|]; congruence).
    destruct remote; cbn [settle]; apply Hdispatch;
      solve [assumption | discriminate].
  - unfold confirmSettled in Hstep.
    destruct (confirming s); [discriminate|].
    apply (inj Some) in Hstep; subst s'.
    destruct remote; cbn [settle]; apply Hdispatch;
      solve [now apply invariant_setPending | now apply Hpending | discriminate].
  - unfold deleteSettled in Hstep.
    destruct (deleting s); [discriminate|].
    rewrite deleteUsername_run_resolves in Hstep.
    apply (inj Some) in Hstep; subst s'. cbn [settle].
    destruct remote.
    + apply Hdispatch;
        solve [now apply invariant_setPending | now apply Hpending | discriminate].
    + apply Hdispatch; [| |discriminate|discriminate].
      * apply (invariant_dispatch (showToast FailedToDeleteUsername)
                 (setPending s (confirming s) n));
          [now apply invariant_setPending | discriminate | discriminate].
      * apply (Hdispatch (setPending s (confirming s) n)
                 (showToast FailedToDeleteUsername));
          solve [now apply invariant_setPending | now apply Hpending | discriminate].
Qed.

Lemma exec_preserves (P : Sys -> Prop) :
  (forall s ev s', invariant s -> P s -> step s ev = Some s' -> P s') ->
  forall evs s s', invariant s -> P s -> exec s evs = Some s' -> P s'.
Proof.
  intros Hstep evs. induction evs as [|ev evs IH]; intros s s' Hinv HP Hexec;
    simpl in Hexec.
  - now injection Hexec as <-.
  - destruct (step s ev) as [s1|] eqn:Hs1; [|discriminate].
    apply (IH s1 s'); [|eapply Hstep|]; try eassumption.
    eapply invariant_step; eassumption.
Qed.

(** *** Where the remote calls come from *)

Lemma In_reserveSignals (a : AbortController)
    (cs : list (@RemoteCall UsernameReservationType)) :
  In a (reserveSignals cs) <-> exists p n, In (DoReserveUsername p n a) cs.
Proof.
  induction cs as [|c cs IH]; simpl.
  - split; [intros [] | intros (p & n & [])].
  - destruct c as [p0 n0 a0 | r0 | u0]; simpl; rewrite ?IH; split.
    + intros [-> | (p & n & Hin)]; [exists p0, n0; now left | exists p, n; now right].
    + intros (p & n & [[= _ _ ->] | Hin]); [now left | right; eauto].
    + intros (p & n & Hin). exists p, n. now right.
    + intros (p & n & [[=] | Hin]). eauto.
    + intros (p & n & Hin). exists p, n. now right.
    + intros (p & n & [[=] | Hin]). eauto.
Qed.

Lemma callsJustified_initial (me : option string) :
  callsJustified (initialSystem (UsernameReservationType := UsernameReservationType) me).
Proof.
  unfold callsJustified. simpl. split; [constructor|].
  split; [intros p n a []|]. split; [|intros u []].
  intros a r Hr. now rewrite lookup_nil in Hr.
Qed.

Lemma callsJustified_step (s : Sys) (ev : Event) (s' : Sys) :
  invariant s -> callsJustified s -> step s ev = Some s' -> callsJustified s'.
Proof.
  revert s ev s'. apply step_preserves.
  - intros s action _ Hcj _ _.
    destruct (dispatch_frame action s) as (Hr & Hc & _).
    unfold callsJustified. now rewrite Hr, Hc.
  - trivial.
  - trivial.
  - intros s n _ (Hnd & Hcalls & Hruns & Hdel) Hne Hv.
    unfold callsJustified, reserving. simpl.
    split; [assumption | split; [|split; [|assumption]]].
    + intros p m a Hin. destruct (Hcalls p m a Hin) as (r & Hr & Hrest).
      exists r. split; [now apply lookup_app_l_Some | assumption].
    + intros a r Hr. apply lookup_app_Some in Hr as [Hr | [_ Hr]].
      * now apply (Hruns a).
      * destruct (a - length (runs s)) as [|k]; simpl in Hr; [|discriminate].
        injection Hr as <-. simpl. auto.
  - intros s a r _ (Hnd & Hcalls & Hruns & Hdel) Hr Hp Hab.
    assert (Hlt : a < length (runs s)) by now apply lookup_lt_Some in Hr.
    assert (Hfresh : forall p n, ~ In (DoReserveUsername p n a) (calls s)).
    { intros p n Hin. destruct (Hcalls p n a Hin) as (r' & Hr' & _ & _ & Hp').
      congruence. }
    unfold callsJustified, setPhase. simpl.
    split; [|split; [|split]].
    + apply NoDup_cons. split; [|assumption].
      rewrite list_elem_of_In, In_reserveSignals.
      intros (p & n & Hin). now apply (Hfresh p n).
    + intros p n b [[= <- <- <-] | Hin].
      * eexists. split; [now apply list_lookup_insert_eq|]. simpl. auto.
      * destruct (decide (a = b)) as [-> | Hne]; [now destruct (Hfresh p n)|].
        destruct (Hcalls p n b Hin) as (r' & Hr' & Hrest).
        exists r'. split; [now rewrite list_lookup_insert_ne | assumption].
    + intros b r' Hr'. apply list_lookup_insert_Some in Hr'
        as [(<- & <- & _) | (Hne & Hr')]; [simpl; now apply (Hruns a) | now apply (Hruns b)].
    + intros u [[=] | Hin]. now apply Hdel.
  - intros s a r _ (Hnd & Hcalls & Hruns & Hdel) Hr Hp.
    assert (Hlt : a < length (runs s)) by now apply lookup_lt_Some in Hr.
    unfold callsJustified, setPhase. simpl.
    split; [assumption | split; [|split; [|assumption]]].
    + intros p n b Hin. destruct (Hcalls p n b Hin) as (r' & Hr' & Hu & Hn & Hp').
      destruct (decide (a = b)) as [-> | Hne].
      * eexists. split; [now apply list_lookup_insert_eq|]. simpl.
        assert (r' = r) by congruence. subst r'. auto.
      * exists r'. split; [now rewrite list_lookup_insert_ne | auto].
    + intros b r' Hr'. apply list_lookup_insert_Some in Hr'
        as [(<- & <- & _) | (Hne & Hr')]; [simpl; now apply (Hruns a) | now apply (Hruns b)].
  - intros s r _ (Hnd & Hcalls & Hruns & Hdel) _.
    unfold callsJustified. simpl.
    split; [assumption | split; [|split; [assumption|]]].
    + intros p n a [[=] | Hin]. now apply Hcalls.
    + intros u [[=] | Hin]. now apply Hdel.
  - intros s u _ (Hnd & Hcalls & Hruns & Hdel) Hne.
    unfold callsJustified. simpl.
    split; [assumption | split; [|split; [assumption|]]].
    + intros p n a [[=] | Hin]. now apply Hcalls.
    + intros u' [[= <-] | Hin]; [assumption | now apply Hdel].
Qed.

(** X1.  In every run of the system, no attempt issues its reserve call
    twice; each reserve call carries a non-empty nickname that
    [isValidNickname] accepted, together with the session username read when
    [reserveUsername] was called; and each delete call carries a non-empty
    username. *)
Theorem remote_calls_justified (s : Sys) :
  reachable s ->
  NoDup (reserveSignals (calls s)) /\
  (forall p n a, In (DoReserveUsername p n a) (calls s) ->
     n <> "" /\ isValidNickname n = true /\
     exists r, runs s !! a = Some r /\ runUsername r = p /\ runNickname r = n) /\
  (forall u, In (DoDeleteUsername u) (calls s) -> u <> "").
Proof.
  intros (me & evs & Hexec).
  assert (Hcj : callsJustified s).
  { apply (exec_preserves callsJustified callsJustified_step evs
             (initialSystem me) s);
      [apply invariant_initial | apply callsJustified_initial | exact Hexec]. }
  destruct Hcj as (Hnd & Hcalls & Hruns & Hdel).
  split; [assumption | split; [|assumption]].
  intros p n a Hin. destruct (Hcalls p n a Hin) as (r & Hr & Hu & Hn & _).
  destruct (Hruns a r Hr) as [Hne Hv]. rewrite Hn in Hne, Hv.
  split; [assumption | split; [assumption|]]. eauto.
Qed.

(** *** Where the reservation comes from *)

Lemma reducer_reservation (st st' : State) (action : Action) (h h' : Heap)
    (r : UsernameReservationType) :
  reducer st action h = Ok (st', h') ->
  reservation (usernameReservation st') = Some r ->
  reservation (usernameReservation st) = Some r \/
  exists a, action = RESERVE_USERNAME_FULFILLED (Some (ResultOk r)) a.
Proof.
  intros Hred Hr. destruct action; reducer_cases; eauto.
Qed.

Lemma delivered_mono (r : UsernameReservationType) (s s' : Sys) :
  (forall action, In action (dispatched s) -> In action (dispatched s')) ->
  delivered r s -> delivered r s'.
Proof. intros Hsub [a Ha]. exists a. now apply Hsub. Qed.

Lemma reservationsDelivered_initial (me : option string) :
  reservationsDelivered
    (initialSystem (UsernameReservationType := UsernameReservationType) me).
Proof. split; [discriminate | intros r []]. Qed.

Lemma reservationsDelivered_step (s : Sys) (ev : Event) (s' : Sys) :
  invariant s -> reservationsDelivered s -> step s ev = Some s' ->
  reservationsDelivered s'.
Proof.
  revert s ev s'. apply step_preserves.
  - intros s action _ [Hheld Hsent] _ _.
    destruct (dispatch_frame action s) as (_ & Hc & _ & _ & _ & Hd).
    assert (Hmono : forall r, delivered r s -> delivered r (after (dispatch action s))).
    { intros r. apply delivered_mono. intros x Hx. rewrite Hd. now right. }
    split.
    + intros r Hr.
      destruct (dispatch_store action s) as [(st & h & Hred & Hst & _) | [Hst _]];
        rewrite Hst in Hr.
      * destruct (reducer_reservation _ _ _ _ _ r Hred Hr) as [Hold | [a ->]].
        -- now apply Hmono, Hheld.
        -- exists a. rewrite Hd. now left.
      * now apply Hmono, Hheld.
    + intros r Hin. rewrite Hc in Hin. now apply Hmono, Hsent.
  - trivial.
  - trivial.
  - intros s n _ [Hheld Hsent] _ _. split; [discriminate|].
    intros r Hin. destruct (Hsent r Hin) as [a Ha]. exists a. now right.
  - intros s a r _ [Hheld Hsent] _ _ _. split; [exact Hheld|].
    intros r' [[=] | Hin]. now apply Hsent.
  - intros s a r _ HP _ _. exact HP.
  - intros s r _ [Hheld Hsent] Hr. split; [exact Hheld|].
    intros r' [[= <-] | Hin]; [now apply Hheld | now apply Hsent].
  - intros s u _ [Hheld Hsent] _. split; [exact Hheld|].
    intros r' [[=] | Hin]. now apply Hsent.
Qed.

(** X2.  In every run of the system, the reservation held in the state and
    every reservation handed to the confirm service was the payload of a
    fulfilled reserve action: the module never makes up a reservation. *)
Theorem reservations_come_from_the_service (s : Sys) :
  reachable s ->
  (forall r, reservation (usernameReservation (store s)) = Some r ->
     delivered r s) /\
  (forall r, In (DoConfirmUsername r) (calls s) -> delivered r s).
Proof.
  intros (me & evs & Hexec).
  apply (exec_preserves reservationsDelivered reservationsDelivered_step evs
           (initialSystem me) s);
    [apply invariant_initial | apply reservationsDelivered_initial | exact Hexec].
Qed.

(** *** Which events abort a controller *)

Lemma dispatch_heap (action : Action) (s : Sys) :
  (forall meta, action <> RESERVE_USERNAME_PENDING meta) ->
  heap (after (dispatch action s)) = heap s.
Proof.
  intros Hnp.
  destruct (dispatch_store action s) as [(st & h & Hred & _ & ->) | [_ ->]];
    [|reflexivity].
  apply reducer_effect in Hred.
  destruct action; try (now destruct Hred). now destruct (Hnp meta).
Qed.

Lemma step_heap (s s' : Sys) (ev : Event) :
  step s ev = Some s' ->
  heap s' = heap s \/
  exists n, ev = UiReserve n /\ n <> "" /\ isValidNickname n = true /\
    heap s' = abortOpt (current s) (heap s ++ [false]).
Proof.
  intros Hstep. destruct ev; cbn [step] in Hstep.
  - apply (inj Some) in Hstep; subst s'. left. apply dispatch_heap. discriminate.
  - apply (inj Some) in Hstep; subst s'. left. apply dispatch_heap. discriminate.
  - apply (inj Some) in Hstep; subst s'. left. apply dispatch_heap. discriminate.
  - apply (inj Some) in Hstep; subst s'. left. apply dispatch_heap. discriminate.
  - apply (inj Some) in Hstep; subst s'. unfold reserveUsername.
    destruct (truthy (Some nickname)) eqn:Ht; cbn [negb]; [|now left].
    assert (Hne : nickname <> "") by (intros ->; discriminate).
    destruct (isValidNickname nickname) eqn:Hv; cbn [negb].
    + right. exists nickname. auto.
    + left. destruct (getNicknameInvalidError (Some nickname)).
      * apply dispatch_heap. discriminate.
      * destruct (assertDev false _); cbv beta iota; [|reflexivity].
        apply dispatch_heap. discriminate.
  - apply (inj Some) in Hstep; subst s'. left. unfold confirmUsername.
    destruct (reservation _) as [r|].
    + pose proof (dispatch_heap CONFIRM_USERNAME_PENDING
                    (issue s (DoConfirmUsername r))) as Hh.
      destruct (dispatch _ _); cbn [after] in *; apply Hh; discriminate.
    + destruct (assertDev false _); cbv beta iota; [|reflexivity].
      apply dispatch_heap. discriminate.
  - apply (inj Some) in Hstep; subst s'. left. unfold deleteUsername.
    destruct (truthy _); cbn [negb]; [|reflexivity].
    destruct (nullish _ _) as [u|]; [|reflexivity].
    pose proof (dispatch_heap DELETE_USERNAME_PENDING
                  (issue s (DoDeleteUsername u))) as Hh.
    destruct (dispatch _ _); cbn [after] in *; apply Hh; discriminate.
  - apply (inj Some) in Hstep; subst s'. now left.
  - unfold sleepElapsed in Hstep.
    destruct (runs s !! a) as [r|]; [|discriminate].
    destruct (phase r); try discriminate.
    destruct (aborted _ _); [discriminate|].
    apply (inj Some) in Hstep; subst s'. now left.
  - unfold sleepAborted in Hstep.
    destruct (runs s !! a) as [r|]; [|discriminate].
    destruct (phase r); try discriminate.
    destruct (aborted _ _); [|discriminate].
    apply (inj Some) in Hstep; subst s'. left. cbn [settle].
    now rewrite dispatch_heap.
  - unfold reserveSettled in Hstep.
    destruct (runs s !! a) as [r|]; [|discriminate].
    destruct (phase r); try discriminate.
    apply (inj Some) in Hstep; subst s'. left.
    destruct remote; cbn [settle]; now rewrite dispatch_heap.
  - unfold confirmSettled in Hstep.
    destruct (confirming s); [discriminate|].
    apply (inj Some) in Hstep; subst s'. left.
    destruct remote; cbn [settle]; now rewrite dispatch_heap.
  - unfold deleteSettled in Hstep.
    destruct (deleting s); [discriminate|].
    rewrite deleteUsername_run_resolves in Hstep.
    apply (inj Some) in Hstep; subst s'. left. cbn [settle].
    rewrite dispatch_heap by discriminate. now destruct remote.
Qed.

(** X3.  An aborted controller stays aborted, and a controller is aborted
    by one event only: a [reserveUsername] with a non-empty valid nickname,
    and then it is the controller recorded in the state.  Closing or opening
    the modal, setting an error, confirming, deleting and every completion
    abort nothing. *)
Theorem abort_only_by_superseding_reserve (s s' : Sys) (ev : Event) :
  step s ev = Some s' ->
  (forall a, aborted (heap s) a = true -> aborted (heap s') a = true) /\
  (forall a, aborted (heap s) a = false -> aborted (heap s') a = true ->
     current s = Some a /\
     exists n, ev = UiReserve n /\ n <> "" /\ isValidNickname n = true).
Proof.
  intros Hstep.
  destruct (step_heap s s' ev Hstep) as [-> | (n & -> & Hne & Hv & ->)].
  - split; [trivial | congruence].
  - split.
    + intros a Ha. apply aborted_abortOpt_mono. now rewrite aborted_new.
    + intros a Hlive Hdead. split; [|eauto].
      destruct (current s) as [c|]; simpl in Hdead.
      * destruct (decide (a = c)) as [-> | Hac]; [reflexivity|].
        rewrite aborted_abort_other, aborted_new in Hdead by exact Hac.
        congruence.
      * rewrite aborted_new in Hdead. congruence.
Qed.

(** *** Attempts that are no longer the recorded one *)

Lemma superseded_step (a : AbortController) (s : Sys) (ev : Event) (s' : Sys) :
  invariant s -> superseded a s -> step s ev = Some s' -> superseded a s'.
Proof.
  revert s ev s'. apply step_preserves.
  - intros s action _ [Hlt Hcur] Hnp _. unfold superseded.
    rewrite dispatch_heap by exact Hnp. split; [assumption|].
    destruct (dispatch_store action s) as [(st & h & Hred & Hst & _) | [Hst _]];
      unfold current; rewrite Hst; [|exact Hcur].
    apply reducer_effect in Hred.
    destruct action;
      try (destruct Hred as [_ [-> | ->]]; [discriminate | exact Hcur]).
    now destruct (Hnp meta).
  - trivial.
  - trivial.
  - intros s n _ [Hlt Hcur] _ _. unfold superseded, current, reserving. simpl.
    rewrite length_abortOpt, length_app. simpl. split; [lia|].
    intros [= Heq]. lia.
  - intros s b r _ HP _ _ _. exact HP.
  - intros s b r _ HP _ _. exact HP.
  - intros s r _ HP _. exact HP.
  - intros s u _ HP _. exact HP.
Qed.

(** X4.  Closing or opening the modal drops the recorded controller, and
    an attempt whose controller is no longer the recorded one never becomes
    the recorded one again: however the system goes on, every later event of
    that attempt (its timer, its completion) leaves the store and the heap
    as they are. *)
Theorem dropped_attempt_never_lands (s : Sys) (a : AbortController) :
  a < length (heap s) ->
  superseded a (after (dispatch closeUsernameReservationModal s)) /\
  superseded a (after (dispatch openUsernameReservationModal s)) /\
  (reachable s -> superseded a s ->
   forall evs s', exec s evs = Some s' ->
     superseded a s' /\
     (forall ev s'', attemptOf ev = Some a -> step s' ev = Some s'' ->
        store s'' = store s' /\ heap s'' = heap s')).
Proof.
  intros Hlt. split; [|split].
  - split; [exact Hlt | discriminate].
  - split; [exact Hlt | discriminate].
  - intros Hreach Hsup evs s' Hexec.
    assert (Hsup' : superseded a s').
    { apply (exec_preserves (superseded a) (superseded_step a) evs s s');
        [now apply invariant_reachable | assumption | assumption]. }
    split; [exact Hsup'|].
    intros ev s'' Hev Hstep.
    apply (stale_event_frame s' s'' a ev); [apply Hsup' | assumption..].
Qed.

(** *** Reserving and confirming in a row *)

Lemma step_reserve (s : Sys) (n : string) :
  n <> "" -> isValidNickname n = true ->
  step s (UiReserve n) = Some (reserving n s).
Proof.
  intros Hne Hv. cbn [step]. rewrite reserveUsername_valid; [reflexivity| |exact Hv].
  destruct n; [congruence | reflexivity].
Qed.

Lemma reserving_wakes (s : Sys) (n : string) :
  invariant s ->
  step (reserving n s) (SleepElapsed (length (heap s)))
  = Some (issue (setPhase (reserving n s) (length (heap s))
                   (mkRun (meUsername s) n Sleeping) AwaitingReserve)
            (DoReserveUsername (meUsername s) n (length (heap s)))).
Proof.
  intros Hinv. cbn [step]. unfold sleepElapsed, AbortController, Heap in *.
  assert (Hrun : runs (reserving n s) !! length (heap s)
                 = Some (mkRun (meUsername s) n Sleeping)).
  { destruct Hinv as (-> & _). cbn [runs reserving]. apply list_lookup_middle.
    reflexivity. }
  rewrite Hrun. cbn [phase].
  destruct (invariant_reserving n s Hinv) as (_ & Hnewest & _).
  destruct (Hnewest (length (heap s)) eq_refl) as [_ ->]. reflexivity.
Qed.

Lemma dispatch_matched_ok (s : Sys) (a : AbortController)
    (r : UsernameReservationType) :
  current s = Some a -> state (usernameReservation (store s)) = Reserving ->
  dispatch (RESERVE_USERNAME_FULFILLED (Some (ResultOk r)) a) s
  = Returned (setStore s (withReservation (store s) (openWith (Some r) None))
                (heap s) (RESERVE_USERNAME_FULFILLED (Some (ResultOk r)) a)).
Proof.
  unfold current. intros Hcur Hst. unfold dispatch, reducer, isState.
  rewrite Hcur, Hst. cbn [sameController]. rewrite Nat.eqb_refl. reflexivity.
Qed.

(** X5.  From any state a run of the system can be in, reserving a valid
    nickname, letting the delay pass, receiving a reservation, confirming it
    and receiving the confirmation goes through in every build: the state is
    [Open] with exactly the reservation received, then [Closed]; the edit
    state is untouched; and exactly two calls were issued, the reserve call
    with the session username and the nickname, then the confirm call with
    the reservation received. *)
Theorem reserve_then_confirm_goes_through (s : Sys) (n : string)
    (r : UsernameReservationType) :
  reachable s -> n <> "" -> isValidNickname n = true ->
  let a := length (heap s) in
  let reserve := [UiReserve n; SleepElapsed a;
                  ReserveSettled a (Resolved (ResultOk r))] in
  (exists s3, exec s reserve = Some s3 /\
     usernameReservation (store s3) = openWith (Some r) None /\
     calls s3 = DoReserveUsername (meUsername s) n a :: calls s) /\
  (exists s5,
     exec s (reserve ++ [UiConfirm; ConfirmSettled (Resolved tt)]) = Some s5 /\
     usernameReservation (store s5) = closedReservation /\
     editState (store s5) = editState (store s) /\
     calls s5 = DoConfirmUsername r
                  :: DoReserveUsername (meUsername s) n a :: calls s /\
     confirming s5 = confirming s).
Proof.
  intros Hreach Hne Hv a reserve. subst reserve a.
  pose proof (invariant_reachable s Hreach) as Hinv.
  assert (Hlen : length (heap s) < length (runs (reserving n s))).
  { destruct Hinv as (-> & _). cbn [runs reserving]. rewrite length_app. simpl. lia. }
  assert (Hexec3 : exec s [UiReserve n; SleepElapsed (length (heap s));
                           ReserveSettled (length (heap s)) (Resolved (ResultOk r))]
    = Some (after (dispatch
        (RESERVE_USERNAME_FULFILLED (Some (ResultOk r)) (length (heap s)))
        (setPhase
           (issue (setPhase (reserving n s) (length (heap s))
                     (mkRun (meUsername s) n Sleeping) AwaitingReserve)
              (DoReserveUsername (meUsername s) n (length (heap s))))
           (length (heap s)) (mkRun (meUsername s) n AwaitingReserve)
           Returned_)))).
  { cbn [exec]. rewrite (step_reserve s n Hne Hv), (reserving_wakes s n Hinv).
    cbn [step]. unfold reserveSettled, AbortController, Heap in *.
    replace (runs (issue _ _) !! length (heap s))
      with (Some (mkRun (meUsername s) n AwaitingReserve)).
    - reflexivity.
    - symmetry. cbn [runs issue setPhase setRuns].
      now apply list_lookup_insert_eq. }
  rewrite dispatch_matched_ok in Hexec3 by reflexivity. cbn [after] in Hexec3.
  split.
  - eexists. split; [exact Hexec3|]. split; reflexivity.
  - change (?l ++ ?t) with
      ([UiReserve n; SleepElapsed (length (heap s));
        ReserveSettled (length (heap s)) (Resolved (ResultOk r))] ++ t).
    eexists. split.
    + cbn [app exec] in *.
      destruct (step s (UiReserve n)) as [s1|]; [|discriminate].
      destruct (step s1 _) as [s2|]; [|discriminate].
      destruct (step s2 _) as [s3|]; [|discriminate].
      injection Hexec3 as ->. reflexivity.
    + split; [reflexivity|]. split; [reflexivity|]. split; reflexivity.
Qed.

(** *** Confirming with a reservation *)

(** X6.  With a reservation in the state, [confirmUsername] always issues
    the confirm call with exactly that reservation.  If the modal is [Open],
    or in a production build, the state becomes [Confirming], keeps the
    reservation and loses its error, and one confirmation is pending.  In a
    build that is not a production build and a state other than [Open], the
    pending action trips the reducer's assertion after the call went out:
    the thunk throws, the store is unchanged and no completion is awaited. *)
Theorem confirmUsername_with_reservation (s : Sys)
    (r : UsernameReservationType) :
  reservation (usernameReservation (store s)) = Some r ->
  calls (after (confirmUsername s)) = DoConfirmUsername r :: calls s /\
  heap (after (confirmUsername s)) = heap s /\
  (isProduction = true \/ state (usernameReservation (store s)) = Open ->
     exists s', confirmUsername s = Returned s' /\
       usernameReservation (store s')
       = {| state := Confirming; reservation := Some r; error := None;
            abortController := None |} /\
       editState (store s') = editState (store s) /\
       confirming s' = S (confirming s)) /\
  (isProduction = false -> state (usernameReservation (store s)) <> Open ->
     exists s', confirmUsername s
       = Thrown (AssertionError "Must be open before confirmation") s' /\
       store s' = store s /\ confirming s' = confirming s).
Proof.
  intros Hr. unfold confirmUsername, dispatch. rewrite Hr.
  cbn [store heap issue]. unfold reducer, bind, assertDev, isState.
  rewrite Hr.
  destruct (bool_decide (state (usernameReservation (store s)) = Open)) eqn:Hopen.
  - split; [reflexivity|]. split; [reflexivity|]. split.
    + intros _. eexists. split; [reflexivity|]. repeat split.
    + intros _ Hne. apply bool_decide_eq_true in Hopen. contradiction.
  - destruct isProduction.
    + split; [reflexivity|]. split; [reflexivity|]. split.
      * intros _. eexists. split; [reflexivity|]. repeat split.
      * discriminate.
    + split; [reflexivity|]. split; [reflexivity|]. split.
      * intros [Hprod | Hst]; [discriminate|].
        apply bool_decide_eq_false in Hopen. contradiction.
      * intros _ _. eexists. split; [reflexivity|]. split; reflexivity.
Qed.

(** *** The shapes of the state *)

Lemma reducer_shapely (st st' : State) (action : Action) (h h' : Heap) :
  shapely (usernameReservation st) ->
  reducer st action h = Ok (st', h') ->
  shapely (usernameReservation st').
Proof.
  intros [Hres Hheld] Hred. unfold shapely in *.
  destruct action; reducer_cases; simpl in *;
    try (split; [assumption | assumption]);
    try (split; [split; [discriminate | intros [? [=]]] | intros [? [=]]]; fail);
    try (split; [split; [discriminate | intros [? [=]]] | auto]; fail).
  - split; [assumption | intros [? [=]]].
  - split; [split; [now eexists | reflexivity] | intros [? [=]]].
Qed.

(** X7.  In every state reachable from the empty state through the
    reducer, the state is [Reserving] exactly when a controller is recorded,
    and a reservation is held only while the modal is [Open] or
    [Confirming]. *)
Theorem reachable_states_are_shapely (st : State) :
  reachableState st ->
  (state (usernameReservation st) = Reserving
   <-> is_Some (abortController (usernameReservation st))) /\
  (is_Some (reservation (usernameReservation st)) ->
   state (usernameReservation st) = Open \/
   state (usernameReservation st) = Confirming).
Proof.
  induction 1 as [|st action h st' h' _ IH Hred].
  - split; [split; [discriminate | intros [? [=]]] | intros [? [=]]].
  - exact (reducer_shapely st st' action h h' IH Hred).
Qed.

(** *** The edit state and the reservation flow *)

Lemma reducer_editState (st st' : State) (action : Action) (h h' : Heap) :
  reducer st action h = Ok (st', h') ->
  match action with
  | SET_USERNAME_EDIT_STATE e =>
      editState st' = e /\
      usernameReservation st' = usernameReservation st /\ h' = h
  | DELETE_USERNAME_PENDING => editState st' = Deleting
  | DELETE_USERNAME_FULFILLED => editState st' = Editing
  | _ => editState st' = editState st
  end.
Proof.
  intros Hred. destruct action; reducer_cases; auto.
Qed.

Lemma dispatch_editState (action : Action) (s : Sys) :
  (forall e, action <> SET_USERNAME_EDIT_STATE e) ->
  action <> DELETE_USERNAME_PENDING -> action <> DELETE_USERNAME_FULFILLED ->
  editState (store (after (dispatch action s))) = editState (store s).
Proof.
  intros Hset Hpending Hfulfilled.
  destruct (dispatch_store action s) as [(st & h & Hred & -> & _) | [-> _]];
    [|reflexivity].
  apply reducer_editState in Hred.
  destruct action; try exact Hred; try contradiction.
  now destruct (Hset editState0).
Qed.

(** X8.  The two halves of the slice do not disturb each other.  In a run
    of the system the edit state changes by three events only:
    [setUsernameEditState], which sets the edit state it is given and leaves
    the reservation state alone, [deleteUsername] and the completion of a
    delete.  Whatever the reservation flow does (opening, closing, setting
    an error, reserving, confirming, and every timer and completion of
    these), the edit state stays as it is. *)
Theorem editState_changes_only_by_edit_or_delete (s s' : Sys) (ev : Event) :
  step s ev = Some s' ->
  match ev with
  | UiSetEditState e =>
      editState (store s') = e /\
      usernameReservation (store s') = usernameReservation (store s)
  | UiDelete _ | DeleteSettled _ => True
  | _ => editState (store s') = editState (store s)
  end.
Proof.
  intros Hstep. destruct ev; cbn [step] in Hstep; try exact I.
  - apply (inj Some) in Hstep; subst s'. split; reflexivity.
  - apply (inj Some) in Hstep; subst s'. reflexivity.
  - apply (inj Some) in Hstep; subst s'. reflexivity.
  - apply (inj Some) in Hstep; subst s'. reflexivity.
  - apply (inj Some) in Hstep; subst s'. unfold reserveUsername.
    destruct (truthy (Some nickname)); cbn [negb]; [|reflexivity].
    destruct (isValidNickname nickname); cbn [negb]; [reflexivity|].
    destruct (getNicknameInvalidError (Some nickname)); [reflexivity|].
    destruct (assertDev false _); reflexivity.
  - apply (inj Some) in Hstep; subst s'. unfold confirmUsername.
    destruct (reservation _) as [r|].
    + pose proof (dispatch_editState CONFIRM_USERNAME_PENDING
                    (issue s (DoConfirmUsername r))) as He.
      destruct (dispatch _ _); cbn [after] in *; apply He; discriminate.
    + destruct (assertDev false _); reflexivity.
  - apply (inj Some) in Hstep; subst s'. reflexivity.
  - unfold sleepElapsed in Hstep.
    destruct (runs s !! a) as [r|]; [|discriminate].
    destruct (phase r); try discriminate.
    destruct (aborted _ _); [discriminate|].
    apply (inj Some) in Hstep; subst s'. reflexivity.
  - unfold sleepAborted in Hstep.
    destruct (runs s !! a) as [r|]; [|discriminate].
    destruct (phase r); try discriminate.
    destruct (aborted _ _); [|discriminate].
    apply (inj Some) in Hstep; subst s'. cbn [settle].
    now rewrite dispatch_editState.
  - unfold reserveSettled in Hstep.
    destruct (runs s !! a) as [r|]; [|discriminate].
    destruct (phase r); try discriminate.
    apply (inj Some) in Hstep; subst s'.
    destruct remote; cbn [settle]; now rewrite dispatch_editState.
  - unfold confirmSettled in Hstep.
    destruct (confirming s); [discriminate|].
    apply (inj Some) in Hstep; subst s'.
    destruct remote; cbn [settle]; now rewrite dispatch_editState.
Qed.

End MoreUsernameProperties.

(** ** Properties of the updates duck *)

Module UpdatesProperties.

Import Updates.

Section UpdatesProperties.

Context {Number : Type}.

Local Abbreviation State := (@UpdatesStateType Number).
Local Abbreviation Action := (@UpdatesActionType Number).
Local Abbreviation Sys := (@System Number).

Lemma plusOne_min (n : N) :
  (n <= 2 ^ 53)%N -> plusOne n = N.min (n + 1) (2 ^ 53).
Proof.
  intros Hle. unfold plusOne.
  destruct (N.ltb_spec n (2 ^ 53)); lia.
Qed.

Lemma showEventsCount_reducer (st : State) (action : Action) :
  showEventsCount (reducer st action)
  = if isShow action then plusOne (showEventsCount st) else showEventsCount st.
Proof.
  destruct action; simpl; try reflexivity.
  now destruct (bool_decide _).
Qed.

(** X9.  Starting from a count of at most [2^53] (as from the empty state),
    after any list of actions the count of show events is the count before
    plus the number of [SHOW_UPDATE_DIALOG] actions in the list, capped at
    [2^53], where adding one to the double no longer changes it; no other
    action touches the count. *)
Theorem show_events_are_counted (st : State) (actions : list Action) :
  (showEventsCount st <= 2 ^ 53)%N ->
  showEventsCount (foldl reducer st actions)
  = N.min (showEventsCount st + N.of_nat (length (List.filter isShow actions)))
      (2 ^ 53).
Proof.
  revert st. induction actions as [|a actions IH]; intros st Hle; simpl.
  - lia.
  - assert (Hle' : (showEventsCount (reducer st a) <= 2 ^ 53)%N).
    { rewrite showEventsCount_reducer. destruct (isShow a); [|assumption].
      rewrite plusOne_min by assumption. lia. }
    rewrite (IH _ Hle'), showEventsCount_reducer.
    destruct (isShow a); simpl; [|reflexivity].
    rewrite plusOne_min by assumption. lia.
Qed.

(** X10.  Dismissing closes the read-only notice and nothing else: however
    often [DISMISS_DIALOG] is dispatched, a state showing any other dialog
    is returned as it is, and a state showing [MacOS_Read_Only] only has its
    dialog type set to [None]. *)
Theorem dismiss_only_closes_read_only_notice (st : State) (k : nat) :
  foldl reducer st (replicate (S k) DISMISS_DIALOG)
  = if bool_decide (dialogType st = DialogType.MacOS_Read_Only)
    then withDialog st DialogType.None (didSnooze st)
    else st.
Proof.
  revert st. induction k as [|k IH]; intros st.
  - reflexivity.
  - change (foldl reducer st (replicate (S (S k)) DISMISS_DIALOG))
      with (foldl reducer (reducer st DISMISS_DIALOG)
              (replicate (S k) DISMISS_DIALOG)).
    rewrite IH. simpl.
    destruct (bool_decide (dialogType st = DialogType.MacOS_Read_Only)) eqn:E;
      simpl; [reflexivity | now rewrite E].
Qed.

Lemma didSnooze_reducer (st : State) (action : Action) :
  didSnooze (reducer st action)
  = if writesSnooze action
    then match action with SNOOZE_UPDATE => true | _ => false end
    else didSnooze st.
Proof.
  destruct action; simpl; try reflexivity.
  now destruct (bool_decide _).
Qed.

Lemma didSnooze_kept (actions : list Action) (st : State) :
  Forall (fun a => writesSnooze a = false) actions ->
  didSnooze (foldl reducer st actions) = didSnooze st.
Proof.
  revert st. induction actions as [|a actions IH]; intros st Hall; simpl.
  - reflexivity.
  - apply Forall_cons in Hall as [Ha Hall].
    now rewrite (IH _ Hall), didSnooze_reducer, Ha.
Qed.

(** X11.  After any list of actions, [didSnooze] is decided by the last
    action among [SNOOZE_UPDATE], [START_UPDATE] and [UNSNOOZE_UPDATE]: true
    when it is a snooze, false when it is one of the other two; showing or
    dismissing a dialog never changes it. *)
Theorem didSnooze_follows_last_writer (st : State) (actions : list Action) :
  (Forall (fun a => writesSnooze a = false) actions ->
     didSnooze (foldl reducer st actions) = didSnooze st) /\
  (forall pre w post,
     actions = pre ++ w :: post ->
     writesSnooze w = true ->
     Forall (fun a => writesSnooze a = false) post ->
     didSnooze (foldl reducer st actions)
     = match w with SNOOZE_UPDATE => true | _ => false end).
Proof.
  split.
  - apply didSnooze_kept.
  - intros pre w post -> Hw Hpost.
    rewrite foldl_app. simpl.
    now rewrite (didSnooze_kept post _ Hpost), didSnooze_reducer, Hw.
Qed.

Lemma lastWriterWins_intro {A} (get : State -> option A)
    (key : UpdateDialogOptionsType -> Key A) :
  (forall st action,
     get (reducer st action)
     = match action with
       | SHOW_UPDATE_DIALOG _ o => spread (get st) (key o)
       | _ => get st
       end) ->
  lastWriterWins get key.
Proof.
  intros Hget.
  assert (Hkept : forall actions st,
    Forall (fun a => writesKey key a = false) actions ->
    get (foldl reducer st actions) = get st).
  { induction actions as [|a actions IH]; intros st Hall; simpl.
    - reflexivity.
    - apply Forall_cons in Hall as [Ha Hall].
      rewrite (IH _ Hall), Hget.
      destruct a; try reflexivity. simpl in Ha.
      now destruct (key otherState). }
  intros st actions. split; [apply Hkept|].
  intros pre d o post v -> Hv Hpost.
  rewrite foldl_app. cbn [foldl].
  now rewrite (Hkept post _ Hpost), Hget, Hv.
Qed.

(** X12.  The download size, the downloaded size and the version are
    written by [SHOW_UPDATE_DIALOG] only, and only for the keys its options
    carry: after any list of actions each of them holds what the last show
    carrying its key wrote (possibly undefined), or its old value when no
    show carried the key. *)
Theorem download_fields_follow_last_writer :
  lastWriterWins (Number := Number) downloadSize optDownloadSize /\
  lastWriterWins (Number := Number) downloadedSize optDownloadedSize /\
  lastWriterWins (Number := Number) version optVersion.
Proof.
  split; [|split]; apply lastWriterWins_intro; intros st action;
    destruct action; simpl; try reflexivity; now destruct (bool_decide _).
Qed.

(** *** The thunks *)

Lemma snoozed_has_timer_step (s s' : Sys) (ev : Event) :
  (didSnooze (updates s) = true -> timers s <> []) ->
  step s ev = Some s' ->
  (didSnooze (updates s') = true -> timers s' <> []).
Proof.
  intros Hinv Hstep. destruct ev; simpl in Hstep.
  - injection Hstep as <-. simpl.
    now destruct (bool_decide _).
  - injection Hstep as <-. exact Hinv.
  - injection Hstep as <-. simpl. intros _ Heq.
    now apply app_eq_nil in Heq as [_ [=]].
  - injection Hstep as <-. discriminate.
  - injection Hstep as <-. exact Hinv.
  - unfold dayElapsed in Hstep. destruct (timers s); [discriminate|].
    injection Hstep as <-. discriminate.
  - unfold startSettled in Hstep. destruct (starting s); [discriminate|].
    destruct ipc; injection Hstep as <-; exact Hinv.
Qed.

Lemma snoozed_has_timer_exec (evs : list Event) (s s' : Sys) :
  (didSnooze (updates s) = true -> timers s <> []) ->
  exec s evs = Some s' ->
  (didSnooze (updates s') = true -> timers s' <> []).
Proof.
  revert s. induction evs as [|ev evs IH]; intros s Hinv Hexec; simpl in Hexec.
  - now injection Hexec as <-.
  - destruct (step s ev) as [s1|] eqn:Hs1; [|discriminate].
    apply (IH s1); [|assumption].
    now apply (snoozed_has_timer_step s s1 ev).
Qed.

(** X13.  In every run from the initial system, while the state says the
    update is snoozed a snooze timer is pending: the timeout that unsnoozes
    can still fire. *)
Theorem snoozed_has_pending_timer (s : Sys) :
  reachable s -> didSnooze (updates s) = true ->
  timers s <> [] /\ exists s', step s DayElapsed = Some s'.
Proof.
  intros [evs Hexec] Hsnoozed.
  assert (Hinv : timers s <> []).
  { apply (snoozed_has_timer_exec evs initialSystem s);
      [discriminate | assumption | assumption]. }
  split; [exact Hinv|].
  simpl. unfold dayElapsed. destruct (timers s) eqn:E.
  - now destruct Hinv.
  - eauto.
Qed.

Lemma timers_kept (evs : list Event) (s s' : Sys) :
  Forall (fun e => touchesTimers e = false) evs ->
  exec s evs = Some s' -> timers s' = timers s.
Proof.
  revert s. induction evs as [|ev evs IH]; intros s Hall Hexec; simpl in Hexec.
  - now injection Hexec as <-.
  - apply Forall_cons in Hall as [Hev Hall].
    destruct (step s ev) as [s1|] eqn:Hs1; [|discriminate].
    rewrite (IH s1 Hall Hexec).
    destruct ev; try discriminate; simpl in Hs1;
      try (injection Hs1 as <-; reflexivity).
    unfold startSettled in Hs1. destruct (starting s); [discriminate|].
    destruct ipc; injection Hs1 as <-; reflexivity.
Qed.

Lemma exec_app (evs1 evs2 : list Event) (s : Sys) :
  exec s (evs1 ++ evs2)
  = match exec s evs1 with
    | Some s1 => exec s1 evs2
    | None => None
    end.
Proof.
  revert s. induction evs1 as [|ev evs1 IH]; intros s; simpl.
  - reflexivity.
  - destruct (step s ev); [apply IH | reflexivity].
Qed.

(** X14.  A snooze captures the dialog type on display.  With no other
    snooze timer pending, whatever is shown, dismissed or started before the
    timeout fires, the unsnooze puts the captured dialog type back on
    display, over anything shown since, and clears [didSnooze]. *)
Theorem unsnooze_restores_captured_dialog (s s' : Sys) (evs : list Event) :
  timers s = [] ->
  Forall (fun e => touchesTimers e = false) evs ->
  exec s (UiSnooze :: evs ++ [DayElapsed]) = Some s' ->
  dialogType (updates s') = dialogType (updates s) /\
  didSnooze (updates s') = false /\
  timers s' = [].
Proof.
  intros Hnone Hall Hexec.
  change (exec s (UiSnooze :: evs ++ [DayElapsed]))
    with (exec (snoozeUpdate s) (evs ++ [DayElapsed])) in Hexec.
  rewrite exec_app in Hexec.
  destruct (exec (snoozeUpdate s) evs) as [s1|] eqn:Hs1; [|discriminate].
  pose proof (timers_kept evs _ _ Hall Hs1) as Ht.
  simpl in Ht. rewrite Hnone in Ht. simpl in Ht.
  simpl in Hexec. unfold dayElapsed in Hexec. rewrite Ht in Hexec.
  injection Hexec as <-. repeat split.
Qed.


End UpdatesProperties.

End UpdatesProperties.

(** ** The further properties at concrete runs *)

Lemma remote_calls_justified_witness :
  let s := systemAfter developmentBuild closedWhileConfirming in
  NoDup (reserveSignals (calls s)) /\
  (forall p n a, In (DoReserveUsername p n a) (calls s) ->
     n <> "" /\ sampleValid n = true).
Proof.
  intros s.
  destruct (remote_calls_justified (env := developmentBuild) s
              (reachable_systemAfter developmentBuild closedWhileConfirming
                 (ex_intro _ _ eq_refl)))
    as (Hnd & Hcalls & _).
  split; [exact Hnd|].
  intros p n a Hin. destruct (Hcalls p n a Hin) as (Hne & Hv & _). auto.
Defined.

Lemma reservations_come_from_the_service_witness :
  delivered "abc.01" (systemAfter developmentBuild closedWhileConfirming).
Proof.
  apply (proj2 (reservations_come_from_the_service (env := developmentBuild)
                  (systemAfter developmentBuild closedWhileConfirming)
                  (reachable_systemAfter developmentBuild closedWhileConfirming
                     (ex_intro _ _ eq_refl)))).
  left. reflexivity.
Defined.

Lemma abort_only_by_superseding_reserve_witness :
  let s := systemAfter developmentBuild [UiOpenModal; UiReserve "abc"] in
  let s' := systemAfter developmentBuild supersedingEvents in
  aborted (heap s) 0 = false /\ aborted (heap s') 0 = true /\
  current s = Some 0.
Proof.
  intros s s'. split; [reflexivity|]. split; [reflexivity|].
  apply (proj2 (abort_only_by_superseding_reserve (env := developmentBuild)
                  s s' (UiReserve "abcd") eq_refl) 0 eq_refl eq_refl).
Defined.

Lemma dropped_attempt_never_lands_witness :
  let s := systemAfter developmentBuild [UiOpenModal; UiReserve "abc"] in
  superseded 0 (after (dispatch (env := developmentBuild)
                         closeUsernameReservationModal s)).
Proof.
  intros s.
  apply (dropped_attempt_never_lands (env := developmentBuild) s 0).
  simpl. lia.
Defined.

Lemma reserve_then_confirm_goes_through_witness :
  exists s5,
    exec (env := developmentBuild) (initialSystem None)
      ([UiReserve "valid_name"; SleepElapsed 0;
        ReserveSettled 0 (Resolved (ResultOk "valid_name.01"))]
       ++ [UiConfirm; ConfirmSettled (Resolved tt)]) = Some s5 /\
    usernameReservation (store s5) = closedReservation /\
    calls s5 = [DoConfirmUsername "valid_name.01";
                DoReserveUsername None "valid_name" 0].
Proof.
  destruct (proj2 (reserve_then_confirm_goes_through (env := developmentBuild)
                     (initialSystem None) "valid_name" "valid_name.01"
                     (reachable_systemAfter developmentBuild []
                        (ex_intro _ _ eq_refl))
                     ltac:(discriminate) eq_refl))
    as (s5 & Hexec & Hclosed & _ & Hcalls & _).
  exists s5. split; [exact Hexec|]. split; [exact Hclosed | exact Hcalls].
Defined.

Lemma confirmUsername_with_reservation_witness :
  let s := systemAfter developmentBuild
             [UiOpenModal; UiReserve "abc"; SleepElapsed 0;
              ReserveSettled 0 (Resolved (ResultOk "abc.01"))] in
  calls (after (confirmUsername (env := developmentBuild) s))
  = DoConfirmUsername "abc.01" :: calls s.
Proof.
  intros s.
  apply (confirmUsername_with_reservation (env := developmentBuild) s "abc.01").
  reflexivity.
Defined.

Lemma reachable_states_are_shapely_witness :
  state (usernameReservation reservingState) = Reserving
  <-> is_Some (abortController (usernameReservation reservingState)).
Proof.
  apply (reachable_states_are_shapely (env := developmentBuild) reservingState
           (reachableState_reserving developmentBuild)).
Defined.

Lemma editState_changes_only_by_edit_or_delete_witness :
  let s := systemAfter developmentBuild
             [UiSetEditState ConfirmingDelete; UiOpenModal; UiReserve "abc"] in
  let s' := systemAfter developmentBuild
              [UiSetEditState ConfirmingDelete; UiOpenModal; UiReserve "abc";
               UiCloseModal] in
  editState (store s') = editState (store s).
Proof.
  intros s s'.
  apply (editState_changes_only_by_edit_or_delete (env := developmentBuild)
           s s' UiCloseModal eq_refl).
Defined.

Lemma show_events_are_counted_witness :
  Updates.showEventsCount
    (foldl Updates.reducer (Updates.getEmptyState (Number := N))
       [Updates.SHOW_UPDATE_DIALOG DialogType.Cannot_Update Updates.noOptions;
        Updates.DISMISS_DIALOG;
        Updates.SHOW_UPDATE_DIALOG DialogType.MacOS_Read_Only Updates.noOptions])
  = 2%N.
Proof.
  rewrite (UpdatesProperties.show_events_are_counted (Number := N)).
  - reflexivity.
  - simpl. lia.
Defined.

Lemma didSnooze_follows_last_writer_witness :
  Updates.didSnooze
    (foldl Updates.reducer (Updates.getEmptyState (Number := N))
       [Updates.START_UPDATE; Updates.SNOOZE_UPDATE;
        Updates.SHOW_UPDATE_DIALOG DialogType.Cannot_Update Updates.noOptions])
  = true.
Proof.
  apply (proj2 (UpdatesProperties.didSnooze_follows_last_writer (Number := N)
                  Updates.getEmptyState _)
           [Updates.START_UPDATE] Updates.SNOOZE_UPDATE
           [Updates.SHOW_UPDATE_DIALOG DialogType.Cannot_Update Updates.noOptions]).
  - reflexivity.
  - reflexivity.
  - repeat constructor.
Defined.

Lemma snoozed_has_pending_timer_witness :
  match Updates.exec (Number := N) Updates.initialSystem
          [Updates.UiShow (DialogType.Other "DownloadReady") None;
           Updates.UiSnooze] with
  | Some s => Updates.timers s <> []
  | None => False
  end.
Proof.
  destruct (Updates.exec (Number := N) Updates.initialSystem
              [Updates.UiShow (DialogType.Other "DownloadReady") None;
               Updates.UiSnooze]) as [s|] eqn:Hexec.
  - apply (UpdatesProperties.snoozed_has_pending_timer (Number := N) s).
    + eexists. exact Hexec.
    + injection Hexec as <-. reflexivity.
  - discriminate Hexec.
Defined.

Lemma unsnooze_restores_captured_dialog_witness :
  match Updates.exec (Number := N) Updates.initialSystem
          (Updates.UiSnooze
             :: [Updates.UiShow (DialogType.Other "DownloadReady") None]
             ++ [Updates.DayElapsed]) with
  | Some s' => Updates.dialogType (Updates.updates s') = DialogType.None
  | None => False
  end.
Proof.
  destruct (Updates.exec (Number := N) Updates.initialSystem
              (Updates.UiSnooze
                 :: [Updates.UiShow (DialogType.Other "DownloadReady") None]
                 ++ [Updates.DayElapsed])) as [s'|] eqn:Hexec.
  - apply (UpdatesProperties.unsnooze_restores_captured_dialog (Number := N)
             Updates.initialSystem s'
             [Updates.UiShow (DialogType.Other "DownloadReady") None]).
    + reflexivity.
    + repeat constructor.
    + exact Hexec.
  - discriminate Hexec.
Defined.
